(** * pkg/serve: publishing image content into an object store

    A shallow embedding of [pkg/serve/serve.go].  The Go package writes the
    config, layer and manifest blobs of a container image (or of every image
    of an index) into an OSS bucket and answers a registry request either
    with three introspection headers (HEAD) or with a redirect to the blob.

    The embedding keeps the shape of the source:
    - the v1.Image / v1.Layer / v1.ImageIndex interfaces are records of
      fallible results, one field per interface method the code calls;
    - every function of the package that performs I/O is a term of the
      small process language [proc], whose constructors are the effects of
      the source (bucket.PutObject, Header().Set, http.Redirect, and an
      errgroup fan-out joined by g.Wait);
    - goroutines are interleaved by an explicit schedule, and the outcome
      of every PutObject is chosen by that schedule as well, so a statement
      quantified over schedules covers every interleaving and every failure
      pattern of the store. *)

From Stdlib Require Import ZArith Lia List.
From Stdlib Require Import Ascii String DecimalString DecimalPos DecimalZ.
From stdpp Require Import base option list gmap strings.

Set Warnings "-clear-no-such-hyp".

Local Open Scope string_scope.
Local Open Scope Z_scope.

(** ** Go values *)

(** A Go [error] is represented by its message. *)
Definition error := string.

(** A Go [(T, error)] result pair. *)
Inductive result (A : Type) : Type :=
| Ok (a : A)
| Err (e : error).
Arguments Ok {A} a.
Arguments Err {A} e.

(** [[]byte] contents of a blob. *)
Definition bytes := list Byte.byte.

(** v1.Hash and its String method. *)
Module Hash.
Record t := mk { Algorithm : string; Hex : string }.
Definition String (h : t) : string := Algorithm h +:+ ":" +:+ Hex h.
(** The zero value of the struct, [var h v1.Hash]. *)
Definition zero : t := mk "" "".
End Hash.

(** v1.Descriptor, restricted to the fields the package fills. *)
Module Descriptor.
Record t := mk { Digest : Hash.t; MediaType : string; Size : Z }.
End Descriptor.

(** An io.ReadCloser: the bytes it yields and what Close returns. *)
Record ReadCloser := mkRC { rc_data : bytes; rc_close : option error }.

(** ioutil.NopCloser(bytes.NewReader(b)) *)
Definition NopCloser (b : bytes) : ReadCloser := mkRC b None.

(** v1.Layer *)
Module Layer.
Record t := mk {
  Digest : result Hash.t;
  MediaType : result string;
  Compressed : result ReadCloser
}.
End Layer.

(** v1.Image *)
Module Image.
Record t := mk {
  ConfigName : result Hash.t;
  RawConfigFile : result bytes;
  Layers : result (list Layer.t);
  RawManifest : result bytes;
  MediaType : result string;
  Digest : result Hash.t;
  Size : result Z
}.
End Image.

(** v1.ImageIndex; [Manifests] is the descriptor list of its IndexManifest. *)
Module ImageIndex.
Record t := mk {
  IndexManifest : result (list Descriptor.t);
  Image : Hash.t -> result Image.t;
  RawManifest : result bytes;
  MediaType : result string;
  Digest : result Hash.t;
  Size : result Z
}.
End ImageIndex.

(** ** Package state and constants *)

(** The package-level variables read from the environment. *)
Record config := mkConfig {
  bucket : string;
  endpoint : string;
  accessID : string;
  accessKey : string
}.

Definition metaContentLength : string := "Content-Length".
Definition metaContentType : string := "Content-Type".
Definition metaDockerContentDigest : string := "Docker-Content-Digest".

Definition MethodHead : string := "HEAD".
Definition StatusSeeOther : Z := 303.

(** The oss client, as far as the package uses it: [client.Bucket name]
    validates the bucket name and returns a handle or an error. *)
Record Client := mkClient { client_Bucket : string -> option error }.

Record Storage := mkStorage { client : Client }.

(** NewStorage: fills in the defaults of the two package variables, then
    builds the client.  [oss_New] is the SDK constructor. *)
Definition NewStorage (oss_New : string -> string -> string -> result Client)
    (cfg : config) : config * result Storage :=
  let cfg1 :=
    if String.eqb (endpoint cfg) ""
    then mkConfig (bucket cfg) "oss-cn-beijing.aliyuncs.com" (accessID cfg) (accessKey cfg)
    else cfg in
  let cfg2 :=
    if String.eqb (bucket cfg1) ""
    then mkConfig "nydus-demo" (endpoint cfg1) (accessID cfg1) (accessKey cfg1)
    else cfg1 in
  let ossEndpoint := "https://" +:+ endpoint cfg2 in
  match oss_New ossEndpoint (accessID cfg2) (accessKey cfg2) with
  | Err e => (cfg2, Err ("NewClient: " +:+ e))
  | Ok c => (cfg2, Ok (mkStorage c))
  end.

(** fmt.Sprintf("blobs/%s", name): the object key of a blob name. *)
Definition objectKey (name : string) : string := "blobs/" +:+ name.

(** fmt.Sprintf("%d", n) *)
Definition fmt_d (n : Z) : string := NilZero.string_of_int (Z.to_int n).

(** ** The object store *)

(** A stored object: its bytes and the headers given with the upload. *)
Record object := mkObject {
  obj_body : bytes;
  obj_headers : list (string * string)
}.

(** oss.Meta(k, v) sets the header X-Oss-Meta-k. *)
Definition oss_Meta (k v : string) : string * string := ("X-Oss-Meta-" +:+ k, v).
(** oss.ContentType(v) *)
Definition oss_ContentType (v : string) : string * string := ("Content-Type", v).

(** http.Header *)
Abbreviation Header := (gmap string (list string)).

(** Header.Set for a list of (name, value) pairs, in order. *)
Definition set_headers (hs : list (string * string)) (h : Header) : Header :=
  foldl (fun acc kv => <[kv.1 := [kv.2]]> acc) h hs.

(** What the service reports for a stored object: the headers of the upload
    and the length of the body. *)
Definition object_meta (o : object) : Header :=
  <[metaContentLength := [fmt_d (Z.of_nat (length (obj_body o)))]]>
    (set_headers (obj_headers o) ∅).

(** bucket.GetObjectDetailedMeta on a bucket holding [st]. *)
Definition GetObjectDetailedMeta (st : gmap string object) (key : string)
    : result Header :=
  match st !! key with
  | Some o => Ok (object_meta o)
  | None => Err "NoSuchKey"
  end.

(** ** Library parsers used by BlobExists *)

(** strings.Split(s, sep) for a one-character separator. *)
Fixpoint split_on (sep : ascii) (s : string) : list string :=
  match s with
  | EmptyString => [EmptyString]
  | String c s' =>
      if Ascii.eqb c sep then EmptyString :: split_on sep s'
      else match split_on sep s' with
           | [] => [String c EmptyString]
           | x :: xs => String c x :: xs
           end
  end.

Definition is_lower_hex (c : ascii) : bool :=
  let n := nat_of_ascii c in
  ((48 <=? n)%nat && (n <=? 57)%nat) || ((97 <=? n)%nat && (n <=? 102)%nat).

Fixpoint all_chars (f : ascii -> bool) (s : string) : bool :=
  match s with
  | EmptyString => true
  | String c s' => f c && all_chars f s'
  end.

(** v1.NewHash: "algorithm:hex", lower-case hex digits only, the algorithm
    sha256 and its 64 hex digits. *)
Definition NewHash (s : string) : result Hash.t :=
  match split_on ":" s with
  | [alg; hex] =>
      if negb (all_chars is_lower_hex hex)
      then Err "found non-hex character in hash"
      else if negb (String.eqb alg "sha256")
      then Err ("unsupported hash: " +:+ alg)
      else if negb (Nat.eqb (String.length hex) 64)
      then Err ("wrong number of hex digits for " +:+ alg +:+ ": " +:+ hex)
      else Ok (Hash.mk alg hex)
  | _ => Err ("cannot parse hash: " +:+ s)
  end.

(** strconv.ParseInt(s, 10, 64): optional sign, decimal digits, and the
    range of int64. *)
Definition ParseInt (s : string) : result Z :=
  let digits (t : string) : option Z :=
    option_map Z.of_uint (NilZero.uint_of_string t) in
  match s with
  | EmptyString => Err "strconv.ParseInt: invalid syntax"
  | String c t =>
      let v := if Ascii.eqb c "+" then digits t
               else if Ascii.eqb c "-" then option_map Z.opp (digits t)
               else digits s in
      match v with
      | None => Err "strconv.ParseInt: invalid syntax"
      | Some n =>
          if (- 2 ^ 63 <=? n) && (n <? 2 ^ 63) then Ok n
          else Err "strconv.ParseInt: value out of range"
      end
  end.

(** ** BlobExists *)

(** A call either returns a value, returns an error, or panics. *)
Inductive outcome (A : Type) : Type :=
| Returns (a : A)
| Fails (e : error)
| Panics (msg : string).
Arguments Returns {A} a.
Arguments Fails {A} e.
Arguments Panics {A} msg.

(** [objMetadata[k]]: indexing a Go map yields the zero value (a nil slice)
    for an absent key. *)
Definition hget (h : Header) (k : string) : list string := default [] (h !! k).

(** BlobExists.  [getMeta] is bucket.GetObjectDetailedMeta of the handle
    the client returned. *)
Definition BlobExists (cfg : config) (s : Storage)
    (getMeta : string -> result Header) (name : string)
    : outcome Descriptor.t :=
  match client_Bucket (client s) (bucket cfg) with
  | Some e => Fails e
  | None =>
  match getMeta (objectKey name) with
  | Err e => Fails e
  | Ok objMetadata =>
  match (match hget objMetadata ("X-Oss-Meta-" +:+ metaDockerContentDigest) with
         | [d0] => NewHash d0
         | _ => Ok Hash.zero
         end) with
  | Err e => Fails e
  | Ok h =>
  match (match hget objMetadata metaContentLength with
         | [d0] => ParseInt d0
         | _ => Ok 0
         end) with
  | Err e => Fails e
  | Ok size =>
  match hget objMetadata metaContentType with
  | [] => Panics "index out of range [0] with length 0"
  | ct :: _ => Returns (Descriptor.mk h ct size)
  end end end end end.

(** ** Effects of the writing functions *)

(** What a run leaves behind, one event per step:
    - [EvPut key o out]: a bucket.PutObject call and what it returned;
    - [EvHeader], [EvRedirect]: writes to the http.ResponseWriter;
    - [EvDone r]: a goroutine of an errgroup returned [r];
    - [EvWait r]: g.Wait returned [r]. *)
Inductive event : Type :=
| EvPut (key : string) (o : object) (out : option error)
| EvHeader (name value : string)
| EvRedirect (url : string) (code : Z)
| EvDone (r : option error)
| EvWait (r : option error).

(** The programs of the package.  Each constructor but [Return] is one
    effect followed by the rest of the function:
    - [PutObject key o k]: [err = bucket.PutObject(key, ...)], then
      [if err != nil { return err }], then [k];
    - [HeaderSet n v k]: [w.Header().Set(n, v)], then [k];
    - [Redirect url code k]: [http.Redirect(w, r, url, code)], then [k];
    - [Group tasks gerr k]: the goroutines started with [g.Go], the error
      slot of the group, and [if err := g.Wait(); err != nil { return err }]
      followed by [k]. *)
#[warnings="-register-all"]
Inductive proc : Type :=
| Return (r : option error)
| PutObject (key : string) (o : object) (k : proc)
| HeaderSet (name value : string) (k : proc)
| Redirect (url : string) (code : Z) (k : proc)
| Group (tasks : list proc) (gerr : option error) (k : proc).

(** [p ;; q] in Go: [if err := p; err != nil { return err }; q]. *)
Fixpoint andThen (p q : proc) : proc :=
  match p with
  | Return None => q
  | Return (Some e) => Return (Some e)
  | PutObject key o k => PutObject key o (andThen k q)
  | HeaderSet n v k => HeaderSet n v (andThen k q)
  | Redirect u c k => Redirect u c (andThen k q)
  | Group ts gerr k => Group ts gerr (andThen k q)
  end.

Declare Scope proc_scope.
Delimit Scope proc_scope with proc.
Bind Scope proc_scope with proc.
Notation "p >> q" := (andThen p q)
  (at level 90, right associativity) : proc_scope.
Notation "'try!' x := e 'in' k" :=
  (match e with Ok x => k | Err err => Return (Some err) end)
  (at level 10, x name, e at level 100, k at level 200,
   format "'[v' 'try!'  x  :=  e  'in' '/' k ']'") : proc_scope.
Local Open Scope proc_scope.
Local Open Scope list_scope.

Section Serve.

Variable cfg : config.
Variable s : Storage.

(** Blob *)
Definition resolveLocation (name : string) : string :=
  "https://" +:+ bucket cfg +:+ "." +:+ endpoint cfg +:+ "/blobs/" +:+ name.

Definition Blob (name : string) : proc :=
  Redirect (resolveLocation name) StatusSeeOther (Return None).


(** The object writeBlob uploads. *)
Definition blobObject (h : Hash.t) (rc : ReadCloser) (contentType : string)
    : object :=
  mkObject (rc_data rc)
    [ oss_ContentType contentType;
      oss_Meta metaContentType contentType;
      oss_Meta metaDockerContentDigest (Hash.String h) ].

(** writeBlob *)
Definition writeBlob (name : string) (h : Hash.t) (rc : ReadCloser)
    (contentType : string) : proc :=
  match client_Bucket (client s) (bucket cfg) with
  | Some e => Return (Some e)
  | None =>
      PutObject (objectKey name) (blobObject h rc contentType)
        (Return (option_map (fun e => "rc.Close: " +:+ e) (rc_close rc)))
  end.

(** The goroutine WriteImage starts for one layer. *)
Definition layerTask (l : Layer.t) : proc :=
  try! rc := Layer.Compressed l in
  try! lh := Layer.Digest l in
  try! mt := Layer.MediaType l in
  writeBlob (Hash.String lh) lh rc mt.

(** The goroutine started for one name of [also]. *)
Definition aliasTask (digest : Hash.t) (b : bytes) (mt : string)
    (a : string) : proc :=
  writeBlob a digest (NopCloser b) mt.

(** WriteImage *)
Definition WriteImage (img : Image.t) (also : list string) : proc :=
  try! ch := Image.ConfigName img in
  try! cb := Image.RawConfigFile img in
  writeBlob (Hash.String ch) ch (NopCloser cb) "application/json" >>
  try! layers := Image.Layers img in
  Group (map layerTask layers) None (
  try! b := Image.RawManifest img in
  try! mt := Image.MediaType img in
  try! digest := Image.Digest img in
  writeBlob (Hash.String digest) digest (NopCloser b) mt >>
  Group (map (aliasTask digest b mt) also) None (Return None)).

(** ServeManifest; [method] is r.Method. *)
Definition ServeManifest (method : string) (img : Image.t)
    (also : list string) : proc :=
  WriteImage img also >>
  try! digest := Image.Digest img in
  if String.eqb method MethodHead then
    try! mt := Image.MediaType img in
    try! sz := Image.Size img in
    HeaderSet metaDockerContentDigest (Hash.String digest) (
    HeaderSet metaContentType mt (
    HeaderSet metaContentLength (fmt_d sz) (
    Return None)))
  else
    Blob (Hash.String digest) >> Return None.

(** The goroutine ServeIndex starts for one manifest of the index. *)
Definition imageTask (idx : ImageIndex.t) (m : Descriptor.t) : proc :=
  try! img := ImageIndex.Image idx (Descriptor.Digest m) in
  WriteImage img [].

(** ServeIndex *)
Definition ServeIndex (method : string) (idx : ImageIndex.t)
    (also : list string) : proc :=
  try! im := ImageIndex.IndexManifest idx in
  Group (map (imageTask idx) im) None (
  try! b := ImageIndex.RawManifest idx in
  try! mt := ImageIndex.MediaType idx in
  try! digest := ImageIndex.Digest idx in
  writeBlob (Hash.String digest) digest (NopCloser b) mt >>
  Group (map (aliasTask digest b mt) also) None (
  if String.eqb method MethodHead then
    try! sz := ImageIndex.Size idx in
    HeaderSet metaDockerContentDigest (Hash.String digest) (
    HeaderSet metaContentType mt (
    HeaderSet metaContentLength (fmt_d sz) (
    Return None)))
  else
    Blob (Hash.String digest) >> Return None)).

End Serve.

(** ** Running a program *)

(** The bucket and everything that happened so far. *)
Record world := mkWorld {
  store : gmap string object;
  trace : list event
}.

Definition emit (ev : event) (w : world) : world :=
  mkWorld (store w) (trace w ++ [ev]).

(** A successful PutObject replaces whatever the key held. *)
Definition put (key : string) (o : object) (w : world) : world :=
  mkWorld (<[key := o]> (store w)) (trace w ++ [EvPut key o None]).

(** One scheduling decision: which goroutine moves (a path through the
    nested groups, one index per level) and, if this step is a PutObject,
    what the store answers. *)
Record choice := mkChoice {
  path : list nat;
  answer : option error
}.

Definition descend (c : choice) : choice := mkChoice (tail (path c)) (answer c).

(** errOnce: the group keeps the first error it is given. *)
Definition errOnce (gerr r : option error) : option error :=
  match gerr with
  | Some e => Some e
  | None => r
  end.

(** One step of goroutine number [i] of a group: a goroutine that has
    returned hands its result to the group and leaves; any other goroutine
    makes one step of its own with [f]. *)
Section StepTask.
Variable f : proc -> world -> proc * world.

Fixpoint step_task (i : nat) (ts : list proc) (gerr : option error)
    (w : world) {struct ts} : list proc * option error * world :=
  match ts with
  | [] => ([], gerr, w)
  | t :: ts' =>
      match i with
      | O =>
          match t with
          | Return r => (ts', errOnce gerr r, emit (EvDone r) w)
          | _ => let '(t', w') := f t w in (t' :: ts', gerr, w')
          end
      | S i' =>
          let '(ts'', gerr', w') := step_task i' ts' gerr w in
          (t :: ts'', gerr', w')
      end
  end.
End StepTask.

(** One step of a program.  g.Wait returns once no goroutine is left. *)
Fixpoint step (c : choice) (p : proc) (w : world) {struct p} : proc * world :=
  match p with
  | Return r => (Return r, w)
  | PutObject key o k =>
      match answer c with
      | None => (k, put key o w)
      | Some e => (Return (Some e), emit (EvPut key o (Some e)) w)
      end
  | HeaderSet n v k => (k, emit (EvHeader n v) w)
  | Redirect u code k => (k, emit (EvRedirect u code) w)
  | Group [] gerr k =>
      (match gerr with Some e => Return (Some e) | None => k end,
       emit (EvWait gerr) w)
  | Group ts gerr k =>
      let i := (hd O (path c) mod length ts)%nat in
      let '(ts', gerr', w') := step_task (step (descend c)) i ts gerr w in
      (Group ts' gerr' k, w')
  end.

(** A schedule is a list of decisions, one per step. *)
Fixpoint run (cs : list choice) (p : proc) (w : world) : proc * world :=
  match cs with
  | [] => (p, w)
  | c :: cs' => let '(p', w') := step c p w in run cs' p' w'
  end.

(** The number of steps a program can make at most. *)
Fixpoint fuel (p : proc) : nat :=
  match p with
  | Return _ => O
  | PutObject _ _ k => S (fuel k)
  | HeaderSet _ _ k => S (fuel k)
  | Redirect _ _ k => S (fuel k)
  | Group ts _ k => S (list_sum (map (fun t => S (fuel t)) ts) + fuel k)
  end.

(** A scheduler decides at every step; the program is run for as many
    steps as it can make. *)
Definition schedule := nat -> choice.

Definition decisions (sc : schedule) (n : nat) : list choice :=
  map sc (seq O n).

Definition exec (sc : schedule) (p : proc) (w : world) : proc * world :=
  run (decisions sc (fuel p)) p w.

(** What the call returned, once the program is a [Return]. *)
Definition returned (p : proc) : option (option error) :=
  match p with
  | Return r => Some r
  | _ => None
  end.

(** The events a run added to the trace of [w]. *)
Definition added (w w' : world) : list event :=
  drop (length (trace w)) (trace w').

(** * Reasoning about runs *)

(** ** Induction on programs, through the goroutine lists *)

Section ProcInduction.
Variable P : proc -> Prop.
Hypothesis HReturn : forall r, P (Return r).
Hypothesis HPut : forall key o k, P k -> P (PutObject key o k).
Hypothesis HHeader : forall n v k, P k -> P (HeaderSet n v k).
Hypothesis HRedirect : forall u c k, P k -> P (Redirect u c k).
Hypothesis HGroup :
  forall ts gerr k, Forall P ts -> P k -> P (Group ts gerr k).

Fixpoint proc_rect_nested (p : proc) : P p :=
  match p with
  | Return r => HReturn r
  | PutObject key o k => HPut key o k (proc_rect_nested k)
  | HeaderSet n v k => HHeader n v k (proc_rect_nested k)
  | Redirect u c k => HRedirect u c k (proc_rect_nested k)
  | Group ts gerr k =>
      HGroup ts gerr k
        ((fix all (l : list proc) : Forall P l :=
            match l with
            | [] => @List.Forall_nil proc P
            | t :: l' => @List.Forall_cons proc P t l' (proc_rect_nested t) (all l')
            end) ts)
        (proc_rect_nested k)
  end.
End ProcInduction.

(** ** The transitions of a program, without the scheduler *)

Inductive Step : proc -> event -> proc -> Prop :=
| Step_put_ok key o k :
    Step (PutObject key o k) (EvPut key o None) k
| Step_put_fail key o k e :
    Step (PutObject key o k) (EvPut key o (Some e)) (Return (Some e))
| Step_header n v k :
    Step (HeaderSet n v k) (EvHeader n v) k
| Step_redirect u c k :
    Step (Redirect u c k) (EvRedirect u c) k
| Step_wait_ok k :
    Step (Group [] None k) (EvWait None) k
| Step_wait_err e k :
    Step (Group [] (Some e) k) (EvWait (Some e)) (Return (Some e))
| Step_done ts1 r ts2 gerr k :
    Step (Group (ts1 ++ Return r :: ts2) gerr k) (EvDone r)
         (Group (ts1 ++ ts2) (errOnce gerr r) k)
| Step_task ts1 t t' ts2 gerr k ev :
    Step t ev t' ->
    Step (Group (ts1 ++ t :: ts2) gerr k) ev (Group (ts1 ++ t' :: ts2) gerr k).

Inductive Steps : proc -> list event -> proc -> Prop :=
| Steps_nil p : Steps p [] p
| Steps_cons p ev p' evs p'' :
    Step p ev p' -> Steps p' evs p'' -> Steps p (ev :: evs) p''.

(** What an event does to the world. *)
Definition apply_event (ev : event) (w : world) : world :=
  match ev with
  | EvPut key o None => put key o w
  | _ => emit ev w
  end.

Definition apply_events (evs : list event) (w : world) : world :=
  foldl (fun w ev => apply_event ev w) w evs.

Lemma step_task_spec f i ts gerr w :
  (i < length ts)%nat ->
  exists ts1 t ts2,
    ts = ts1 ++ t :: ts2 /\
    ((exists r, t = Return r /\
        step_task f i ts gerr w = (ts1 ++ ts2, errOnce gerr r, emit (EvDone r) w))
     \/ (returned t = None /\
        step_task f i ts gerr w = (ts1 ++ (f t w).1 :: ts2, gerr, (f t w).2))).
Proof.
  revert i. induction ts as [|t ts IH]; intros i Hi; simpl in Hi; [lia|].
  destruct i as [|i].
  - exists [], t, ts. split; [done|].
    destruct t; simpl; try (right; split; [done|]; by destruct (f _ w)).
    left. by eexists.
  - destruct (IH i) as (ts1 & t1 & ts2 & -> & H); [lia|].
    exists (t :: ts1), t1, ts2. split; [done|]. simpl.
    destruct H as [(r & -> & ->)|(Hr & ->)]; [left; by eexists|by right].
Qed.

Lemma step_sound c p w :
  returned p = None ->
  exists ev,
    Step p ev (step c p w).1 /\
    (step c p w).2 = apply_event ev w /\
    (forall key o e, ev = EvPut key o (Some e) -> answer c = Some e).
Proof.
  revert c w. induction p as [r|key o k _|n v k _|u code k _|ts gerr k IHts _]
    using proc_rect_nested; intros c w Hp; simpl in Hp; try done.
  - simpl. destruct (answer c) as [e|] eqn:Ha.
    + eexists. split; [apply Step_put_fail|]. split; [done|]. congruence.
    + eexists. split; [apply Step_put_ok|]. by split.
  - eexists. split; [apply Step_header|]. by split.
  - eexists. split; [apply Step_redirect|]. by split.
  - destruct ts as [|t0 ts].
    { simpl. destruct gerr as [e|]; eexists;
        (split; [constructor|]); by split. }
    cbn [step].
    set (i := (hd O (path c) mod length (t0 :: ts))%nat).
    assert (Hi : (i < length (t0 :: ts))%nat).
    { apply Nat.mod_upper_bound. simpl. lia. }
    destruct (step_task_spec (step (descend c)) i (t0 :: ts) gerr w Hi)
      as (ts1 & t & ts2 & Hts & H).
    rewrite Hts in *. clear Hts.
    destruct H as [(r & -> & ->)|(Hr & ->)]; simpl.
    + eexists. split; [apply Step_done|]. by split.
    + apply Forall_app in IHts as [_ IHt]. apply Forall_cons in IHt as [IHt _].
      destruct (IHt (descend c) w Hr) as (ev & HS & Hw & Ha).
      exists ev. split; [by apply Step_task|]. by split.
Qed.

(** A step of a finished call changes nothing. *)
Lemma step_returned c r w : step c (Return r) w = (Return r, w).
Proof. done. Qed.

Lemma run_returned cs r w : run cs (Return r) w = (Return r, w).
Proof. induction cs as [|c cs IH]; [done|]. simpl. apply IH. Qed.

Lemma run_sound cs p w :
  exists evs,
    Steps p evs (run cs p w).1 /\
    (run cs p w).2 = apply_events evs w /\
    (forall key o e, EvPut key o (Some e) ∈ evs ->
       exists c, c ∈ cs /\ answer c = Some e).
Proof.
  revert p w. induction cs as [|c cs IH]; intros p w; simpl.
  { exists []. split; [constructor|]. split; [done|]. intros ??? H.
    by apply elem_of_nil in H. }
  destruct (returned p) eqn:Hp.
  { destruct p; try done. simpl. rewrite run_returned. exists [].
    split; [constructor|]. split; [done|]. intros ??? H.
    by apply elem_of_nil in H. }
  destruct (step_sound c p w Hp) as (ev & HS & Hw & Ha).
  destruct (step c p w) as [p' w'] eqn:Hst. simpl in *. subst w'.
  destruct (IH p' (apply_event ev w)) as (evs & HSs & Hws & Has).
  exists (ev :: evs). split; [by econstructor|]. split; [done|].
  intros key o e [Heq|Hin]%elem_of_cons.
  - exists c. split; [left|]. by eapply Ha.
  - destruct (Has _ _ _ Hin) as (c' & ? & ?). exists c'. split; [by right|done].
Qed.

(** ** Every run comes to an end *)

Lemma list_sum_app_S (f : proc -> nat) (l1 l2 : list proc) :
  list_sum (map f (l1 ++ l2)) = (list_sum (map f l1) + list_sum (map f l2))%nat.
Proof. by rewrite map_app, list_sum_app. Qed.

Lemma Step_fuel p ev p' : Step p ev p' -> (fuel p' < fuel p)%nat.
Proof.
  induction 1; simpl; try lia.
  - rewrite !list_sum_app_S. simpl. lia.
  - rewrite !list_sum_app_S. simpl. lia.
Qed.

Lemma fuel_0_returned p : fuel p = O -> exists r, p = Return r.
Proof. destruct p; simpl; try lia. intros _. by eexists. Qed.

Lemma run_finishes cs p w :
  (fuel p <= length cs)%nat -> exists r, (run cs p w).1 = Return r.
Proof.
  revert p w. induction cs as [|c cs IH]; intros p w Hn; simpl in *.
  { apply fuel_0_returned. lia. }
  destruct (returned p) eqn:Hp.
  { destruct p; try done. simpl. rewrite run_returned. by eexists. }
  destruct (step_sound c p w Hp) as (ev & HS & _).
  apply Step_fuel in HS.
  destruct (step c p w) as [p' w']. simpl in *. apply IH. lia.
Qed.

Lemma length_decisions sc n : length (decisions sc n) = n.
Proof. unfold decisions. by rewrite length_map, length_seq. Qed.

(** ** What a run leaves in the world *)

(** The writes of a trace that the store accepted, in order. *)
Definition ok_puts (evs : list event) : list (string * object) :=
  flat_map (fun ev => match ev with
                      | EvPut key o None => [(key, o)]
                      | _ => []
                      end) evs.

(** The writes of a trace the store refused. *)
Definition failed_put (ev : event) : bool :=
  match ev with
  | EvPut _ _ (Some _) => true
  | _ => false
  end.

(** Writing a list of objects, in order. *)
Definition write_all (l : list (string * object)) (st : gmap string object)
    : gmap string object :=
  foldl (fun st kv => <[kv.1 := kv.2]> st) st l.

Lemma trace_apply_event ev w : trace (apply_event ev w) = trace w ++ [ev].
Proof. by destruct ev as [? ? [?|]| | | |]. Qed.

Lemma trace_apply_events evs w : trace (apply_events evs w) = trace w ++ evs.
Proof.
  revert w. induction evs as [|ev evs IH]; intros w; simpl.
  - by rewrite app_nil_r.
  - unfold apply_events in *. simpl. rewrite IH, trace_apply_event.
    by rewrite <- app_assoc.
Qed.

Lemma store_apply_events evs w :
  store (apply_events evs w) = write_all (ok_puts evs) (store w).
Proof.
  revert w. induction evs as [|ev evs IH]; intros w; [done|].
  unfold apply_events in *. simpl. rewrite IH.
  unfold write_all. rewrite foldl_app.
  by destruct ev as [? ? [?|]| | | |].
Qed.

Lemma added_apply_events evs w : added w (apply_events evs w) = evs.
Proof.
  unfold added. rewrite trace_apply_events. by rewrite drop_app_length.
Qed.

(** The summary every statement below starts from: a call run under any
    scheduler returns, and what it did is a sequence of transitions. *)
Lemma exec_spec sc p w :
  exists r evs,
    exec sc p w = (Return r, apply_events evs w) /\
    Steps p evs (Return r) /\
    (forall key o e, EvPut key o (Some e) ∈ evs ->
       exists n, answer (sc n) = Some e).
Proof.
  unfold exec.
  destruct (run_finishes (decisions sc (fuel p)) p w) as [r Hr].
  { by rewrite length_decisions. }
  destruct (run_sound (decisions sc (fuel p)) p w) as (evs & HS & Hw & Ha).
  exists r, evs. rewrite Hr in HS. split.
  - destruct (run _ p w) as [p' w']. simpl in *. by subst.
  - split; [done|]. intros key o e Hin.
    destruct (Ha _ _ _ Hin) as (c & Hc & Hans).
    unfold decisions in Hc. apply list_elem_of_fmap in Hc as (n & -> & _).
    by exists n.
Qed.

(** ** Errors cannot be lost *)

(** A program that already holds an error it will return: an error value
    on its way out, an error kept by a group, or a goroutine of a group in
    that state. *)
Fixpoint doomed (p : proc) : bool :=
  match p with
  | Return r => bool_decide (is_Some r)
  | PutObject _ _ k => doomed k
  | HeaderSet _ _ k => doomed k
  | Redirect _ _ k => doomed k
  | Group ts gerr k =>
      bool_decide (is_Some gerr) || existsb doomed ts || doomed k
  end.

Lemma doomed_Group ts gerr k :
  doomed (Group ts gerr k)
  = bool_decide (is_Some gerr) || existsb doomed ts || doomed k.
Proof. done. Qed.

Lemma Step_doomed p ev p' : Step p ev p' -> doomed p = true -> doomed p' = true.
Proof.
  induction 1; try done.
  - rewrite !doomed_Group, !existsb_app. simpl.
    by destruct gerr, r.
  - rewrite !doomed_Group, !existsb_app. simpl.
    rewrite !orb_true_iff. intuition auto.
Qed.

(** The events that carry an error. *)
Definition carries_error (ev : event) : bool :=
  match ev with
  | EvPut _ _ (Some _) | EvDone (Some _) | EvWait (Some _) => true
  | _ => false
  end.

Lemma Step_error_doomed p ev p' :
  Step p ev p' -> carries_error ev = true -> doomed p' = true.
Proof.
  induction 1; intros Hev; try done.
  - destruct r; [|done]. rewrite doomed_Group.
    by destruct gerr.
  - rewrite doomed_Group, existsb_app. simpl. rewrite IHStep by done.
    by rewrite !orb_true_r.
Qed.

Lemma Step_clean p ev p' :
  Step p ev p' -> doomed p = false -> failed_put ev = false ->
  doomed p' = false.
Proof.
  induction 1; try done.
  - rewrite !doomed_Group, !existsb_app. simpl.
    destruct gerr, r; simpl; try done. by rewrite orb_true_r.
  - rewrite !doomed_Group, !existsb_app. simpl.
    rewrite !orb_false_iff. intuition auto.
Qed.

Lemma Steps_Return_inv r evs p : Steps (Return r) evs p -> evs = [] /\ p = Return r.
Proof. inversion 1 as [|? ? ? ? ? HS]; [done|]. inversion HS. Qed.

Lemma Steps_doomed p evs r :
  Steps p evs (Return r) -> doomed p = true -> is_Some r.
Proof.
  intros H. remember (Return r) as q eqn:Hq. induction H as [|p ev p' evs p'' HS _ IH].
  - subst. simpl. intros Hd. by apply bool_decide_eq_true in Hd.
  - intros Hd. apply IH; [done|]. by eapply Step_doomed.
Qed.

Lemma Steps_error p evs r :
  Steps p evs (Return r) ->
  (exists ev, ev ∈ evs /\ carries_error ev = true) -> is_Some r.
Proof.
  intros H. remember (Return r) as q eqn:Hq.
  induction H as [|p ev p' evs p'' HS Hrest IH]; intros (ev' & Hin & Hev).
  - by apply elem_of_nil in Hin.
  - subst. apply elem_of_cons in Hin as [->|Hin].
    + eapply Steps_doomed; [done|]. by eapply Step_error_doomed.
    + apply IH; [done|]. by exists ev'.
Qed.

Lemma Steps_clean p evs r :
  Steps p evs (Return r) -> doomed p = false ->
  Forall (fun ev => failed_put ev = false) evs -> r = None.
Proof.
  intros H. remember (Return r) as q eqn:Hq.
  induction H as [|p ev p' evs p'' HS Hrest IH]; intros Hd Hall.
  - subst. simpl in Hd. apply bool_decide_eq_false in Hd.
    destruct r; [|done]. by destruct Hd.
  - apply Forall_cons in Hall as [Hev Hall].
    apply IH; [done| |done]. by eapply Step_clean.
Qed.

(** A call that returned nil never held an error. *)
Lemma Steps_None_not_doomed p evs :
  Steps p evs (Return None) -> doomed p = false.
Proof.
  intros H. destruct (doomed p) eqn:Hd; [|done].
  by destruct (Steps_doomed _ _ _ H Hd).
Qed.

Lemma Steps_None_no_error p evs :
  Steps p evs (Return None) -> Forall (fun ev => carries_error ev = false) evs.
Proof.
  intros H. apply Forall_forall. intros ev Hin.
  destruct (carries_error ev) eqn:Hev; [|done].
  destruct (Steps_error _ _ _ H) as [? [=]]. by exists ev.
Qed.

(** ** The writes of a successful call *)

(** The writes a program issues when nothing fails. *)
Fixpoint must_puts (p : proc) : list (string * object) :=
  match p with
  | Return _ => []
  | PutObject key o k => (key, o) :: must_puts k
  | HeaderSet _ _ k => must_puts k
  | Redirect _ _ k => must_puts k
  | Group ts _ k => flat_map must_puts ts ++ must_puts k
  end.

Lemma Step_must_puts p ev p' :
  Step p ev p' -> doomed p' = false ->
  must_puts p ≡ₚ ok_puts [ev] ++ must_puts p'.
Proof.
  induction 1; intros Hd; try done.
  - simpl. by rewrite !flat_map_app.
  - rewrite doomed_Group, existsb_app in Hd. simpl in Hd.
    assert (Ht : doomed t' = false).
    { destruct (doomed t'); [|done]. by rewrite !orb_true_r in Hd. }
    specialize (IHStep Ht). simpl in *. rewrite app_nil_r in *.
    rewrite !flat_map_app. simpl. rewrite IHStep.
    rewrite <- !app_assoc.
    by rewrite (Permutation_app_swap_app (flat_map must_puts ts1)).
Qed.

Lemma ok_puts_cons ev evs : ok_puts (ev :: evs) = ok_puts [ev] ++ ok_puts evs.
Proof. unfold ok_puts. simpl. by rewrite app_nil_r. Qed.

Lemma ok_puts_app evs1 evs2 : ok_puts (evs1 ++ evs2) = ok_puts evs1 ++ ok_puts evs2.
Proof. unfold ok_puts. by rewrite flat_map_app. Qed.

Lemma Steps_must_puts p evs :
  Steps p evs (Return None) -> ok_puts evs ≡ₚ must_puts p.
Proof.
  intros H. remember (Return None) as q eqn:Hq.
  induction H as [|p ev p' evs p'' HS Hrest IH]; [by subst|].
  subst. rewrite ok_puts_cons, IH by done.
  symmetry. apply Step_must_puts; [done|]. by eapply Steps_None_not_doomed.
Qed.

(** ** Only the effects written in a program can happen *)

Inductive act : Type :=
| APut (key : string) (o : object)
| AHeader (name value : string)
| ARedirect (url : string) (code : Z).

Definition act_of (ev : event) : option act :=
  match ev with
  | EvPut key o _ => Some (APut key o)
  | EvHeader n v => Some (AHeader n v)
  | EvRedirect u c => Some (ARedirect u c)
  | EvDone _ | EvWait _ => None
  end.

(** Every effect that occurs anywhere in a program. *)
Fixpoint all_acts (p : proc) : list act :=
  match p with
  | Return _ => []
  | PutObject key o k => APut key o :: all_acts k
  | HeaderSet n v k => AHeader n v :: all_acts k
  | Redirect u c k => ARedirect u c :: all_acts k
  | Group ts _ k => flat_map all_acts ts ++ all_acts k
  end.

Lemma Step_acts p ev p' :
  Step p ev p' ->
  (forall a, act_of ev = Some a -> a ∈ all_acts p) /\
  (forall a, a ∈ all_acts p' -> a ∈ all_acts p).
Proof.
  induction 1; simpl; (split; [intros a Ha|intros a Hin]);
    rewrite ?flat_map_app in *; simpl in *; simplify_eq; set_solver.
Qed.

Lemma Steps_acts p evs p' :
  Steps p evs p' ->
  forall ev a, ev ∈ evs -> act_of ev = Some a -> a ∈ all_acts p.
Proof.
  induction 1 as [|p ev p' evs p'' HS _ IH]; intros ev' a Hin Ha.
  - by apply elem_of_nil in Hin.
  - destruct (Step_acts _ _ _ HS) as [H1 H2].
    apply elem_of_cons in Hin as [->|Hin]; [by apply H1|].
    apply H2. by eapply IH.
Qed.

(** ** Sequencing: the second part runs after the first has returned nil *)

Lemma Step_andThen_inv p q ev x :
  returned p = None -> Step (p >> q) ev x ->
  exists p', Step p ev p' /\ x = (p' >> q).
Proof.
  intros Hp HS. destruct p as [r|key o k|n v k|u c k|ts gerr k];
    simpl in *; try done; inversion HS; subst;
    try (eexists; split; [by constructor|done]).
Qed.

Lemma Steps_andThen p q evs r :
  Steps (p >> q) evs (Return r) ->
  exists evs1 r1,
    Steps p evs1 (Return r1) /\
    match r1 with
    | Some e => evs = evs1 /\ r = Some e
    | None => exists evs2, evs = evs1 ++ evs2 /\ Steps q evs2 (Return r)
    end.
Proof.
  revert p. induction evs as [|ev evs IH]; intros p H.
  - destruct p as [[e|]| | | |]; simpl in H; try (by inversion H).
    + exists [], (Some e). split; [constructor|]. by inversion H.
    + exists [], None. split; [constructor|]. by exists [].
  - destruct (returned p) eqn:Hp.
    { destruct p as [[e|]| | | |]; try done; simpl in H.
      - by apply Steps_Return_inv in H as [? _].
      - exists [], None. split; [constructor|]. by eexists. }
    inversion H as [|? ? p1 ? ? HS Hrest]; subst.
    destruct (Step_andThen_inv _ _ _ _ Hp HS) as (p' & HS' & ->).
    destruct (IH _ Hrest) as (evs1 & r1 & H1 & H2).
    exists (ev :: evs1), r1. split; [by econstructor|].
    destruct r1 as [e|].
    + destruct H2 as [-> ->]. done.
    + destruct H2 as (evs2 & -> & H2). by exists evs2.
Qed.

Lemma Group_andThen ts gerr k : Group ts gerr k = (Group ts gerr (Return None) >> k).
Proof. done. Qed.

(** ** Groups whose goroutines start no group of their own *)

Fixpoint wait_free (p : proc) : bool :=
  match p with
  | Return _ => true
  | PutObject _ _ k => wait_free k
  | HeaderSet _ _ k => wait_free k
  | Redirect _ _ k => wait_free k
  | Group _ _ _ => false
  end.

(** The groups of the program have not been started yet and every
    goroutine they will run is free of groups. *)
Fixpoint fresh_flat (p : proc) : bool :=
  match p with
  | Return _ => true
  | PutObject _ _ k => fresh_flat k
  | HeaderSet _ _ k => fresh_flat k
  | Redirect _ _ k => fresh_flat k
  | Group ts gerr k =>
      forallb wait_free ts && bool_decide (gerr = None) && fresh_flat k
  end.

(** The same, except that the first group may be under way. *)
Definition tidy (p : proc) : bool :=
  match p with
  | Group ts _ k => forallb wait_free ts && fresh_flat k
  | _ => fresh_flat p
  end.

(** The error the first group holds. *)
Definition latched (p : proc) : option error :=
  match p with
  | Group _ gerr _ => gerr
  | _ => None
  end.

(** The first error a goroutine handed to its group. *)
Fixpoint first_error (evs : list event) : option error :=
  match evs with
  | [] => None
  | EvDone (Some e) :: _ => Some e
  | _ :: evs' => first_error evs'
  end.

(** How many goroutines had finished when g.Wait returned for the first
    time; [None] if no g.Wait returned. *)
Fixpoint dones_before_wait (evs : list event) : option nat :=
  match evs with
  | [] => None
  | EvWait _ :: _ => Some O
  | EvDone _ :: evs' => S <$> dones_before_wait evs'
  | _ :: evs' => dones_before_wait evs'
  end.

(** The number of goroutines of the first group of a program, if it
    has a group. *)
Fixpoint launched (p : proc) : option nat :=
  match p with
  | Return _ => None
  | PutObject _ _ k => launched k
  | HeaderSet _ _ k => launched k
  | Redirect _ _ k => launched k
  | Group ts _ _ => Some (length ts)
  end.

Lemma fresh_flat_tidy p : fresh_flat p = true -> tidy p = true /\ latched p = None.
Proof.
  destruct p; simpl; try done.
  rewrite !andb_true_iff, bool_decide_eq_true. naive_solver.
Qed.

Lemma Step_wait_free t ev t' :
  Step t ev t' -> wait_free t = true ->
  wait_free t' = true /\ first_error [ev] = None /\
  dones_before_wait [ev] = None.
Proof. by destruct 1. Qed.

Lemma Step_tidy p ev p' : Step p ev p' -> tidy p = true -> tidy p' = true.
Proof.
  destruct 1; simpl; try done;
    try (intros Hf; by destruct (fresh_flat_tidy _ Hf)).
  - rewrite !forallb_app. simpl. rewrite !andb_true_iff. naive_solver.
  - rewrite !forallb_app. simpl. rewrite !andb_true_iff.
    intros [[? [Ht ?]] ?]. by destruct (Step_wait_free _ _ _ H Ht) as [-> _].
Qed.

Lemma first_error_cons ev evs :
  first_error (ev :: evs)
  = match first_error [ev] with Some e => Some e | None => first_error evs end.
Proof. by destruct ev as [| | |[?|]|]. Qed.

(** errgroup returns the first error handed to it. *)
Lemma Steps_first_error p evs r :
  Steps p evs (Return r) -> tidy p = true ->
  match latched p with
  | Some e => r = Some e
  | None => forall e, first_error evs = Some e -> r = Some e
  end.
Proof.
  intros H. remember (Return r) as q eqn:Hq.
  induction H as [|p ev p' evs p'' HS Hrest IH]; intros Ht.
  { subst. by simpl. }
  specialize (IH Hq (Step_tidy _ _ _ HS Ht)). subst p''.
  destruct HS; simpl in *;
    try (apply fresh_flat_tidy in Ht as [_ Hl]; rewrite Hl in IH; exact IH).
  - apply Steps_Return_inv in Hrest as [-> _]. done.
  - apply Steps_Return_inv in Hrest as [_ [= ->]]. done.
  - destruct gerr as [e|]; [exact IH|]. simpl in IH.
    destruct r0 as [e|]; [|exact IH]. intros e' [= <-]. exact IH.
  - apply andb_true_iff in Ht as [Ht _]. rewrite forallb_app in Ht.
    simpl in Ht. rewrite !andb_true_iff in Ht. destruct Ht as [_ [Ht _]].
    destruct (Step_wait_free _ _ _ HS Ht) as (_ & Hfe & _).
    destruct gerr as [e|]; [exact IH|].
    destruct ev as [| | |[?|]|]; try done; apply IH.
Qed.

(** g.Wait returns only when every goroutine of the group has finished. *)
Lemma Steps_dones_before_wait p evs p'' :
  Steps p evs p'' -> tidy p = true ->
  forall n, dones_before_wait evs = Some n -> launched p = Some n.
Proof.
  induction 1 as [|p ev p' evs p'' HS Hrest IH]; intros Ht n; [done|].
  specialize (IH (Step_tidy _ _ _ HS Ht)).
  destruct HS; simpl in *; try (by apply IH).
  - destruct evs; [done|]. inversion Hrest as [|? ? ? ? ? HS']. inversion HS'.
  - congruence.
  - congruence.
  - rewrite !length_app in *. simpl.
    destruct (dones_before_wait evs) as [m|]; [|done]. simpl.
    intros [= <-]. specialize (IH m eq_refl). simplify_eq. f_equal. lia.
  - apply andb_true_iff in Ht as [Ht _]. rewrite forallb_app in Ht.
    simpl in Ht. rewrite !andb_true_iff in Ht. destruct Ht as [_ [Ht _]].
    rewrite !length_app in *. simpl in *.
    destruct ev; simpl in *; try (by apply IH); inversion HS; by subst.
Qed.

(** * The package's functions *)

(** ** The blobs of an image *)

(** The object WriteImage stores for the config, a layer, the manifest and
    the aliases, as (object key, object) pairs; a list is empty when the
    image does not yield the blob. *)
Definition configBlob (img : Image.t) : list (string * object) :=
  match Image.ConfigName img, Image.RawConfigFile img with
  | Ok ch, Ok cb =>
      [(objectKey (Hash.String ch),
        blobObject ch (NopCloser cb) "application/json")]
  | _, _ => []
  end.

Definition layerBlob (l : Layer.t) : list (string * object) :=
  match Layer.Compressed l, Layer.Digest l, Layer.MediaType l with
  | Ok rc, Ok lh, Ok mt => [(objectKey (Hash.String lh), blobObject lh rc mt)]
  | _, _, _ => []
  end.

Definition layerBlobs (img : Image.t) : list (string * object) :=
  match Image.Layers img with
  | Ok ls => flat_map layerBlob ls
  | Err _ => []
  end.

Definition manifestBlob (img : Image.t) : list (string * object) :=
  match Image.RawManifest img, Image.MediaType img, Image.Digest img with
  | Ok b, Ok mt, Ok d =>
      [(objectKey (Hash.String d), blobObject d (NopCloser b) mt)]
  | _, _, _ => []
  end.

Definition aliasBlobs (img : Image.t) (also : list string)
    : list (string * object) :=
  match Image.RawManifest img, Image.MediaType img, Image.Digest img with
  | Ok b, Ok mt, Ok d =>
      map (fun a => (objectKey a, blobObject d (NopCloser b) mt)) also
  | _, _, _ => []
  end.

Definition referentBlobs (img : Image.t) : list (string * object) :=
  configBlob img ++ layerBlobs img.

Definition manifestBlobs (img : Image.t) (also : list string)
    : list (string * object) :=
  manifestBlob img ++ aliasBlobs img also.

Definition imageBlobs (img : Image.t) (also : list string)
    : list (string * object) :=
  referentBlobs img ++ manifestBlobs img also.

(** Every call on the layer succeeded and its reader closes cleanly. *)
Definition layer_resolved (l : Layer.t) : Prop :=
  exists rc lh mt,
    Layer.Compressed l = Ok rc /\ Layer.Digest l = Ok lh /\
    Layer.MediaType l = Ok mt /\ rc_close rc = None.

(** The image yields its config and every one of its layers. *)
Definition referents_resolved (img : Image.t) : Prop :=
  exists ch cb ls,
    Image.ConfigName img = Ok ch /\ Image.RawConfigFile img = Ok cb /\
    Image.Layers img = Ok ls /\ Forall layer_resolved ls.

(** The image yields its manifest, media type and digest. *)
Definition manifest_resolved (img : Image.t) : Prop :=
  exists b mt d,
    Image.RawManifest img = Ok b /\ Image.MediaType img = Ok mt /\
    Image.Digest img = Ok d.

(** The two halves of WriteImage: what the manifest refers to, and the
    manifest with its aliases. *)
Definition WriteReferents (cfg : config) (s : Storage) (img : Image.t) : proc :=
  try! ch := Image.ConfigName img in
  try! cb := Image.RawConfigFile img in
  writeBlob cfg s (Hash.String ch) ch (NopCloser cb) "application/json" >>
  try! layers := Image.Layers img in
  Group (map (layerTask cfg s) layers) None (Return None).

Definition WriteManifest (cfg : config) (s : Storage) (img : Image.t)
    (also : list string) : proc :=
  try! b := Image.RawManifest img in
  try! mt := Image.MediaType img in
  try! digest := Image.Digest img in
  writeBlob cfg s (Hash.String digest) digest (NopCloser b) mt >>
  Group (map (aliasTask cfg s digest b mt) also) None (Return None).

Lemma elem_of_flat_map {A B} (f : A -> list B) (l : list A) (x : B) :
  x ∈ flat_map f l <-> exists y, y ∈ l /\ x ∈ f y.
Proof.
  rewrite list_elem_of_In, in_flat_map. split; intros (y & H1 & H2); exists y;
    by rewrite ?list_elem_of_In in *.
Qed.

Section ServeFacts.
Variable cfg : config.
Variable s : Storage.

Lemma writeBlob_cases name h rc ct :
  (exists e, client_Bucket (client s) (bucket cfg) = Some e /\
     writeBlob cfg s name h rc ct = Return (Some e))
  \/ (client_Bucket (client s) (bucket cfg) = None /\
      writeBlob cfg s name h rc ct
      = PutObject (objectKey name) (blobObject h rc ct)
          (Return (option_map (fun e => "rc.Close: " +:+ e) (rc_close rc)))).
Proof.
  unfold writeBlob. destruct (client_Bucket _ _) as [e|]; [left|right]; eauto.
Qed.

Lemma writeBlob_acts name h rc ct a :
  a ∈ all_acts (writeBlob cfg s name h rc ct) ->
  a = APut (objectKey name) (blobObject h rc ct).
Proof.
  destruct (writeBlob_cases name h rc ct) as [(e & _ & ->)|[_ ->]]; simpl;
    set_solver.
Qed.

Lemma writeBlob_clean name h rc ct :
  doomed (writeBlob cfg s name h rc ct) = false ->
  client_Bucket (client s) (bucket cfg) = None /\ rc_close rc = None /\
  writeBlob cfg s name h rc ct
  = PutObject (objectKey name) (blobObject h rc ct) (Return None).
Proof.
  destruct (writeBlob_cases name h rc ct) as [(e & _ & ->)|[Hb ->]];
    [done|]. simpl. destruct (rc_close rc); [done|]. done.
Qed.

Lemma writeBlob_wait_free name h rc ct :
  wait_free (writeBlob cfg s name h rc ct) = true.
Proof.
  by destruct (writeBlob_cases name h rc ct) as [(e & _ & ->)|[_ ->]].
Qed.

Lemma layerTask_wait_free l : wait_free (layerTask cfg s l) = true.
Proof.
  unfold layerTask. repeat case_match; try done. apply writeBlob_wait_free.
Qed.

Lemma aliasTask_wait_free d b mt a : wait_free (aliasTask cfg s d b mt a) = true.
Proof. apply writeBlob_wait_free. Qed.

Lemma layerTask_acts l a :
  a ∈ all_acts (layerTask cfg s l) ->
  exists kv, kv ∈ layerBlob l /\ a = APut kv.1 kv.2.
Proof.
  unfold layerTask, layerBlob. repeat case_match; simpl; try set_solver.
  intros ->%writeBlob_acts. eexists. split; [by left|done].
Qed.

Lemma layerTask_clean l :
  doomed (layerTask cfg s l) = false ->
  layer_resolved l /\ must_puts (layerTask cfg s l) = layerBlob l.
Proof.
  unfold layerTask, layerBlob, layer_resolved.
  repeat case_match; simpl; try done.
  intros (_ & Hc & ->)%writeBlob_clean. split; [|done]. naive_solver.
Qed.

Lemma layerTasks_acts ls a :
  a ∈ flat_map all_acts (map (layerTask cfg s) ls) ->
  exists kv, kv ∈ flat_map layerBlob ls /\ a = APut kv.1 kv.2.
Proof.
  rewrite elem_of_flat_map. intros (t & Ht & Ha).
  apply list_elem_of_fmap in Ht as (l & -> & Hl).
  destruct (layerTask_acts _ _ Ha) as (kv & Hkv & ->).
  exists kv. split; [|done]. apply elem_of_flat_map. eauto.
Qed.

Lemma layerTasks_clean ls :
  existsb doomed (map (layerTask cfg s) ls) = false ->
  Forall layer_resolved ls /\
  flat_map must_puts (map (layerTask cfg s) ls) = flat_map layerBlob ls.
Proof.
  induction ls as [|l ls IH]; simpl; [done|].
  intros [Hl Hls]%orb_false_iff.
  destruct (layerTask_clean _ Hl) as [? ->].
  destruct (IH Hls) as [? ->]. by split; [constructor|].
Qed.

Lemma aliasTasks_acts d b mt also a :
  a ∈ flat_map all_acts (map (aliasTask cfg s d b mt) also) ->
  exists al, al ∈ also /\
    a = APut (objectKey al) (blobObject d (NopCloser b) mt).
Proof.
  rewrite elem_of_flat_map. intros (t & Ht & Ha).
  apply list_elem_of_fmap in Ht as (al & -> & Hal).
  apply writeBlob_acts in Ha. eauto.
Qed.

Lemma aliasTasks_clean d b mt also :
  client_Bucket (client s) (bucket cfg) = None ->
  existsb doomed (map (aliasTask cfg s d b mt) also) = false /\
  flat_map must_puts (map (aliasTask cfg s d b mt) also)
  = map (fun a => (objectKey a, blobObject d (NopCloser b) mt)) also.
Proof.
  intros Hb. induction also as [|a also [IH1 IH2]]; simpl; [done|].
  unfold aliasTask at 1 3, writeBlob. rewrite Hb. simpl.
  by rewrite IH1, IH2.
Qed.

(** WriteImage is its two halves in sequence. *)
Lemma WriteImage_phases img also :
  WriteImage cfg s img also
  = (WriteReferents cfg s img >> WriteManifest cfg s img also).
Proof.
  unfold WriteImage, WriteReferents, WriteManifest.
  destruct (Image.ConfigName img); [|done].
  destruct (Image.RawConfigFile img); [|done].
  unfold writeBlob at 1 3.
  destruct (client_Bucket _ _); [done|]. simpl.
  by destruct (Image.Layers img).
Qed.

Lemma WriteReferents_acts img a :
  a ∈ all_acts (WriteReferents cfg s img) ->
  exists kv, kv ∈ referentBlobs img /\ a = APut kv.1 kv.2.
Proof.
  unfold WriteReferents, referentBlobs, configBlob, layerBlobs.
  destruct (Image.ConfigName img) as [ch|]; [|set_solver].
  destruct (Image.RawConfigFile img) as [cb|]; [|set_solver].
  unfold writeBlob. destruct (client_Bucket _ _); [set_solver|]. simpl.
  destruct (Image.Layers img) as [ls|]; simpl.
  - rewrite app_nil_r. intros [->|Ha]%elem_of_cons.
    + eexists. split; [by left|done].
    + destruct (layerTasks_acts _ _ Ha) as (kv & ? & ->).
      exists kv. split; [by right|done].
  - intros [->|Ha]%elem_of_cons; [|set_solver].
    eexists. split; [by left|done].
Qed.

Lemma WriteManifest_acts img also a :
  a ∈ all_acts (WriteManifest cfg s img also) ->
  exists kv, kv ∈ manifestBlobs img also /\ a = APut kv.1 kv.2.
Proof.
  unfold WriteManifest, manifestBlobs, manifestBlob, aliasBlobs.
  destruct (Image.RawManifest img) as [b|]; [|set_solver].
  destruct (Image.MediaType img) as [mt|]; [|set_solver].
  destruct (Image.Digest img) as [d|]; [|set_solver].
  unfold writeBlob. destruct (client_Bucket _ _) eqn:Hb; [set_solver|]. simpl.
  rewrite app_nil_r. intros [->|Ha]%elem_of_cons.
  - eexists. split; [by left|done].
  - destruct (aliasTasks_acts _ _ _ _ _ Ha) as (al & Hal & ->).
    eexists. split; [right; apply list_elem_of_fmap; by exists al|done].
Qed.

Lemma WriteReferents_clean img :
  doomed (WriteReferents cfg s img) = false ->
  client_Bucket (client s) (bucket cfg) = None /\
  referents_resolved img /\
  must_puts (WriteReferents cfg s img) = referentBlobs img.
Proof.
  unfold WriteReferents, referentBlobs, configBlob, layerBlobs,
    referents_resolved.
  destruct (Image.ConfigName img) as [ch|]; [|done].
  destruct (Image.RawConfigFile img) as [cb|]; [|done].
  unfold writeBlob. destruct (client_Bucket _ _) eqn:Hb; [done|]. simpl.
  destruct (Image.Layers img) as [ls|]; [|done]. simpl.
  rewrite orb_false_r, app_nil_r. intros [Hls ->]%layerTasks_clean.
  split; [done|]. split; [|done]. by exists ch, cb, ls.
Qed.

Lemma WriteManifest_clean img also :
  doomed (WriteManifest cfg s img also) = false ->
  manifest_resolved img /\
  must_puts (WriteManifest cfg s img also) = manifestBlobs img also.
Proof.
  unfold WriteManifest, manifestBlobs, manifestBlob, aliasBlobs,
    manifest_resolved.
  destruct (Image.RawManifest img) as [b|]; [|done].
  destruct (Image.MediaType img) as [mt|]; [|done].
  destruct (Image.Digest img) as [d|]; [|done].
  unfold writeBlob. destruct (client_Bucket _ _) eqn:Hb; [done|]. simpl.
  destruct (aliasTasks_clean d b mt also Hb) as [_ ->].
  rewrite app_nil_r. intros _. split; [|done]. by exists b, mt, d.
Qed.

Lemma WriteManifest_not_doomed img also :
  client_Bucket (client s) (bucket cfg) = None -> manifest_resolved img ->
  doomed (WriteManifest cfg s img also) = false.
Proof.
  intros Hb (b & mt & d & Hb' & Hmt & Hd). unfold WriteManifest.
  rewrite Hb', Hmt, Hd. unfold writeBlob. rewrite Hb. simpl.
  destruct (aliasTasks_clean d b mt also Hb) as [-> _]. done.
Qed.

End ServeFacts.

(** ** Sequencing and the invariants *)

Lemma doomed_andThen p q : doomed (p >> q) = doomed p || doomed q.
Proof.
  induction p as [[e|]| | | |ts gerr k IH]; simpl; try done.
  rewrite IH. by rewrite orb_assoc.
Qed.

Lemma must_puts_andThen p q :
  doomed p = false -> must_puts (p >> q) = must_puts p ++ must_puts q.
Proof.
  induction p as [[e|]|key o k IH| | |ts gerr k IH]; simpl; try done.
  - intros Hd. by rewrite IH.
  - intros [_ Hk]%orb_false_iff. by rewrite IH, app_assoc.
Qed.

Lemma fresh_flat_andThen p q :
  fresh_flat p = true -> fresh_flat q = true -> fresh_flat (p >> q) = true.
Proof.
  induction p as [[e|]| | | |ts gerr k IH]; simpl; try done; try tauto.
  rewrite !andb_true_iff. intros [? ?] ?. split; [done|]. by apply IH.
Qed.

Section WriteImageFacts.
Variable cfg : config.
Variable s : Storage.

Lemma writeBlob_fresh_flat name h rc ct :
  fresh_flat (writeBlob cfg s name h rc ct) = true.
Proof.
  by destruct (writeBlob_cases cfg s name h rc ct) as [(e & _ & ->)|[_ ->]].
Qed.

Lemma layerTasks_wait_free ls :
  forallb wait_free (map (layerTask cfg s) ls) = true.
Proof.
  induction ls as [|l ls IH]; [done|]. simpl.
  by rewrite layerTask_wait_free, IH.
Qed.

Lemma aliasTasks_wait_free d b mt also :
  forallb wait_free (map (aliasTask cfg s d b mt) also) = true.
Proof.
  induction also as [|a also IH]; [done|]. simpl.
  by rewrite aliasTask_wait_free, IH.
Qed.

Lemma WriteReferents_fresh_flat img :
  fresh_flat (WriteReferents cfg s img) = true.
Proof.
  unfold WriteReferents. repeat case_match; try done;
    apply fresh_flat_andThen; try apply writeBlob_fresh_flat; try done.
  simpl. by rewrite layerTasks_wait_free.
Qed.

Lemma WriteManifest_fresh_flat img also :
  fresh_flat (WriteManifest cfg s img also) = true.
Proof.
  unfold WriteManifest. repeat case_match; try done.
  apply fresh_flat_andThen; [apply writeBlob_fresh_flat|].
  simpl. by rewrite aliasTasks_wait_free.
Qed.

Lemma WriteImage_fresh_flat img also :
  fresh_flat (WriteImage cfg s img also) = true.
Proof.
  rewrite WriteImage_phases. apply fresh_flat_andThen;
    [apply WriteReferents_fresh_flat|apply WriteManifest_fresh_flat].
Qed.

Lemma WriteImage_launched img also n :
  launched (WriteImage cfg s img also) = Some n ->
  exists ls, Image.Layers img = Ok ls /\ n = length ls.
Proof.
  unfold WriteImage.
  destruct (Image.ConfigName img) as [ch|]; [|done].
  destruct (Image.RawConfigFile img) as [cb|]; [|done].
  unfold writeBlob at 1. destruct (client_Bucket _ _); [done|]. simpl.
  destruct (Image.Layers img) as [ls|]; [|done]. simpl.
  rewrite length_map. intros [= <-]. by exists ls.
Qed.

End WriteImageFacts.

(** * Concrete values used to exercise the statements *)

Module Sample.
Definition cfg : config := mkConfig "nydus-demo" "oss-cn-beijing.aliyuncs.com" "" "".
Definition st : Storage := mkStorage (mkClient (fun _ => None)).

(** A toy digest function: the algorithm sha256 and, as its 64 hex
    digits, the bytes themselves in hex, cut or padded with zeros.  It is
    no cryptographic hash; short distinct blobs get distinct digests. *)
Definition hex_digit (n : N) : ascii :=
  nth (N.to_nat n)
    ["0"; "1"; "2"; "3"; "4"; "5"; "6"; "7";
     "8"; "9"; "a"; "b"; "c"; "d"; "e"; "f"]%char "0"%char.

Fixpoint hex_of_bytes (b : bytes) : string :=
  match b with
  | [] => EmptyString
  | x :: b' =>
      String (hex_digit (Byte.to_N x / 16))
        (String (hex_digit (Byte.to_N x mod 16)) (hex_of_bytes b'))
  end.

Definition zeros64 : string :=
  "0000000000000000000000000000000000000000000000000000000000000000".

Definition toy_hash (b : bytes) : Hash.t :=
  Hash.mk "sha256" (substring 0 64 (hex_of_bytes b +:+ zeros64)).

Definition blob (x : string) : bytes := list_byte_of_string x.

Definition layer (x : string) : Layer.t :=
  Layer.mk (Ok (toy_hash (blob x)))
           (Ok "application/vnd.docker.image.rootfs.diff.tar.gzip")
           (Ok (mkRC (blob x) None)).

Definition image (config : string) (layers : list string) (manifest : string)
    : Image.t :=
  Image.mk (Ok (toy_hash (blob config))) (Ok (blob config))
           (Ok (map layer layers))
           (Ok (blob manifest))
           (Ok "application/vnd.docker.distribution.manifest.v2+json")
           (Ok (toy_hash (blob manifest)))
           (Ok (Z.of_nat (length (blob manifest)))).

(** An image with two distinct layers. *)
Definition imgA : Image.t := image "cfgA" ["layer1"; "layer2"] "manifestA".

(** An image whose two layers are the same blob. *)
Definition imgDup : Image.t := image "cfgD" ["layer1"; "layer1"] "manifestD".

(** Image A with one layer and image B with two, and an index of both. *)
Definition imgOne : Image.t := image "cfgA" ["layerA1"] "manifestA".
Definition imgTwo : Image.t := image "cfgB" ["layerB1"; "layerB2"] "manifestB".

(** Image B', which shares its first layer with image A. *)
Definition imgTwoShared : Image.t :=
  image "cfgB" ["layerA1"; "layerB2"] "manifestB".

Definition descriptor (img : Image.t) : list Descriptor.t :=
  match Image.Digest img, Image.MediaType img, Image.Size img with
  | Ok d, Ok mt, Ok sz => [Descriptor.mk d mt sz]
  | _, _, _ => []
  end.

Definition index_of (imgs : list Image.t) (manifest : string)
    : ImageIndex.t :=
  ImageIndex.mk
    (Ok (flat_map descriptor imgs))
    (fun h =>
       match List.find (fun img => match Image.Digest img with
                                   | Ok d => String.eqb (Hash.String d)
                                                        (Hash.String h)
                                   | Err _ => false
                                   end) imgs with
       | Some img => Ok img
       | None => Err "image not found in index"
       end)
    (Ok (blob manifest))
    (Ok "application/vnd.docker.distribution.manifest.list.v2+json")
    (Ok (toy_hash (blob manifest)))
    (Ok (Z.of_nat (length (blob manifest)))).

Definition index : ImageIndex.t := index_of [imgOne; imgTwo] "index".
Definition indexShared : ImageIndex.t :=
  index_of [imgOne; imgTwoShared] "index".

Definition empty : world := mkWorld ∅ [].

(** The store never fails; goroutine [n mod k] moves at step [n]. *)
Definition calm : schedule := fun n => mkChoice [n; n] None.

(** The same, but the PutObject made at step 2 fails. *)
Definition stormy : schedule :=
  fun n => mkChoice [n; n]
             (if Nat.eqb n 2 then Some "connection reset" else None).
End Sample.

(** * The claims *)

(** C1.  Whatever the schedule and whatever the store answers, a call of
    WriteImage returns, and
    - if any PutObject of the call failed (in particular that of a layer
      goroutine), the call returns an error, whatever the other writes did;
    - when g.Wait returns for the first time, as many goroutines have
      finished as the image has layers: the call waits for every layer
      write it started;
    - the error returned is the first one a goroutine handed to the group. *)
Theorem writeImage_first_error_propagation
    (cfg : config) (s : Storage) (img : Image.t) (also : list string)
    (sc : schedule) (w : world) :
  let '(p', w') := exec sc (WriteImage cfg s img also) w in
  exists r, p' = Return r /\
    ((exists key o e, EvPut key o (Some e) ∈ added w w') ->
       exists e', r = Some e') /\
    (forall n, dones_before_wait (added w w') = Some n ->
       exists ls, Image.Layers img = Ok ls /\ n = length ls) /\
    (forall e, first_error (added w w') = Some e -> r = Some e).
Proof.
  destruct (exec_spec sc (WriteImage cfg s img also) w)
    as (r & evs & Hex & HS & _).
  rewrite Hex, added_apply_events. exists r. split; [done|].
  destruct (fresh_flat_tidy _ (WriteImage_fresh_flat cfg s img also))
    as [Ht Hl].
  split; [|split].
  - intros (key & o & e & Hin). apply (Steps_error _ _ _ HS).
    by exists (EvPut key o (Some e)).
  - intros n Hn. eapply WriteImage_launched.
    by eapply Steps_dones_before_wait.
  - pose proof (Steps_first_error _ _ _ HS Ht) as H. by rewrite Hl in H.
Qed.

(** A run in which the write of one layer fails while the other layer is
    written: the call returns that error after both goroutines finished. *)
Lemma writeImage_first_error_propagation_witness :
  let '(p', w') := exec Sample.stormy
                     (WriteImage Sample.cfg Sample.st Sample.imgA ["latest"])
                     Sample.empty in
  p' = Return (Some "connection reset") /\
  length (ok_puts (added Sample.empty w')) = 2%nat /\
  dones_before_wait (added Sample.empty w') = Some 2%nat.
Proof.
  pose proof (writeImage_first_error_propagation Sample.cfg Sample.st
                Sample.imgA ["latest"] Sample.stormy Sample.empty) as H.
  destruct (exec _ _ _) as [p' w'] eqn:Hex.
  destruct H as (r & -> & H1 & H2 & H3).
  vm_compute in Hex. injection Hex as <- <-.
  split; [done|]. by vm_compute.
Defined.

Lemma append_inj_l (p a b : string) : p +:+ a = p +:+ b -> a = b.
Proof. apply String.app_inj. Qed.

Lemma append_assoc (a b c : string) : a +:+ b +:+ c = (a +:+ b) +:+ c.
Proof.
  induction a as [|x a IH]; [done|].
  change (String x (a +:+ b +:+ c) = String x ((a +:+ b) +:+ c)).
  by rewrite IH.
Qed.


(** ** Serving *)

(** The writes to the http.ResponseWriter among the events of a run. *)
Definition is_response (ev : event) : bool :=
  match ev with
  | EvHeader _ _ | EvRedirect _ _ => true
  | _ => false
  end.

Definition response (evs : list event) : list event :=
  List.filter is_response evs.

(** What ServeManifest does once WriteImage has returned nil. *)
Definition respondManifest (cfg : config) (method : string) (img : Image.t)
    : proc :=
  try! digest := Image.Digest img in
  if String.eqb method MethodHead then
    try! mt := Image.MediaType img in
    try! sz := Image.Size img in
    HeaderSet metaDockerContentDigest (Hash.String digest) (
    HeaderSet metaContentType mt (
    HeaderSet metaContentLength (fmt_d sz) (
    Return None)))
  else
    Blob cfg (Hash.String digest) >> Return None.

(** The three parts of ServeIndex: the images of the index, the index
    manifest with its aliases, and the response. *)
Definition WriteIndexReferents (cfg : config) (s : Storage)
    (idx : ImageIndex.t) : proc :=
  try! im := ImageIndex.IndexManifest idx in
  Group (map (imageTask cfg s idx) im) None (Return None).

Definition WriteIndexManifest (cfg : config) (s : Storage)
    (idx : ImageIndex.t) (also : list string) : proc :=
  try! b := ImageIndex.RawManifest idx in
  try! mt := ImageIndex.MediaType idx in
  try! digest := ImageIndex.Digest idx in
  writeBlob cfg s (Hash.String digest) digest (NopCloser b) mt >>
  Group (map (aliasTask cfg s digest b mt) also) None (Return None).

Definition respondIndex (cfg : config) (method : string) (idx : ImageIndex.t)
    : proc :=
  try! mt := ImageIndex.MediaType idx in
  try! digest := ImageIndex.Digest idx in
  if String.eqb method MethodHead then
    try! sz := ImageIndex.Size idx in
    HeaderSet metaDockerContentDigest (Hash.String digest) (
    HeaderSet metaContentType mt (
    HeaderSet metaContentLength (fmt_d sz) (
    Return None)))
  else
    Blob cfg (Hash.String digest) >> Return None.

(** The blobs of the images of an index, and of its own manifest. *)
Definition indexImageBlobs (idx : ImageIndex.t) : list (string * object) :=
  match ImageIndex.IndexManifest idx with
  | Ok ms =>
      flat_map (fun m => match ImageIndex.Image idx (Descriptor.Digest m) with
                         | Ok img => imageBlobs img []
                         | Err _ => []
                         end) ms
  | Err _ => []
  end.

Definition indexManifestBlobs (idx : ImageIndex.t) (also : list string)
    : list (string * object) :=
  match ImageIndex.RawManifest idx, ImageIndex.MediaType idx,
        ImageIndex.Digest idx with
  | Ok b, Ok mt, Ok d =>
      (objectKey (Hash.String d), blobObject d (NopCloser b) mt)
      :: map (fun a => (objectKey a, blobObject d (NopCloser b) mt)) also
  | _, _, _ => []
  end.

(** A program whose only effects are writes to the bucket. *)
Definition puts_only (p : proc) : Prop :=
  forall a, a ∈ all_acts p -> exists key o, a = APut key o.

Lemma all_acts_andThen p q a :
  a ∈ all_acts (p >> q) -> a ∈ all_acts p \/ a ∈ all_acts q.
Proof.
  induction p as [[e|]| | | |ts gerr k IH]; simpl; set_solver.
Qed.

Lemma puts_only_andThen p q : puts_only p -> puts_only q -> puts_only (p >> q).
Proof. intros Hp Hq a [?|?]%all_acts_andThen; auto. Qed.

Lemma response_nil evs :
  Forall (fun ev => is_response ev = false) evs -> response evs = [].
Proof.
  induction 1 as [|ev evs Hev _ IH]; [done|].
  unfold response in *. simpl. by rewrite Hev.
Qed.

Lemma response_app evs1 evs2 :
  response (evs1 ++ evs2) = response evs1 ++ response evs2.
Proof. apply List.filter_app. Qed.

Lemma Steps_puts_only p evs p' :
  Steps p evs p' -> puts_only p -> response evs = [].
Proof.
  intros HS Hp. apply response_nil, Forall_forall. intros ev Hin.
  destruct ev as [| | | |]; try done.
  - by destruct (Hp _ (Steps_acts _ _ _ HS _ _ Hin eq_refl)) as (? & ? & [=]).
  - by destruct (Hp _ (Steps_acts _ _ _ HS _ _ Hin eq_refl)) as (? & ? & [=]).
Qed.

Ltac inv_steps :=
  repeat match goal with
  | H : Steps (Return _) _ _ |- _ =>
      apply Steps_Return_inv in H as [-> ?]; simplify_eq
  | H : Steps (HeaderSet _ _ _) _ _ |- _ => inversion H; clear H; subst
  | H : Steps (Redirect _ _ _) _ _ |- _ => inversion H; clear H; subst
  | H : Step (HeaderSet _ _ _) _ _ |- _ => inversion H; clear H; subst
  | H : Step (Redirect _ _ _) _ _ |- _ => inversion H; clear H; subst
  end.

Section ServeResponses.
Variable cfg : config.
Variable s : Storage.

Lemma WriteImage_puts_only img also : puts_only (WriteImage cfg s img also).
Proof.
  rewrite WriteImage_phases. apply puts_only_andThen; intros a Ha.
  - destruct (WriteReferents_acts _ _ _ _ Ha) as (kv & _ & ->). eauto.
  - destruct (WriteManifest_acts _ _ _ _ _ Ha) as (kv & _ & ->). eauto.
Qed.

(** The response part either fails before any effect or writes the whole
    response and returns nil. *)
Lemma respondManifest_Steps method img evs r :
  Steps (respondManifest cfg method img) evs (Return r) ->
  (exists e, r = Some e /\ evs = []) \/
  (exists D, r = None /\ Image.Digest img = Ok D /\
     if String.eqb method MethodHead then
       exists T S, Image.MediaType img = Ok T /\ Image.Size img = Ok S /\
         evs = [EvHeader metaDockerContentDigest (Hash.String D);
                EvHeader metaContentType T;
                EvHeader metaContentLength (fmt_d S)]
     else evs = [EvRedirect (resolveLocation cfg (Hash.String D))
                   StatusSeeOther]).
Proof.
  unfold respondManifest. intros HS.
  destruct (Image.Digest img) as [D|e]; [|inv_steps; left; eauto].
  destruct (String.eqb method MethodHead).
  - destruct (Image.MediaType img) as [T|e]; [|inv_steps; left; eauto].
    destruct (Image.Size img) as [S|e]; [|inv_steps; left; eauto].
    inv_steps. right. exists D. split; [done|]. split; [done|].
    by exists T, S.
  - simpl in HS. inv_steps. right. by exists D.
Qed.

Lemma respondIndex_Steps method idx evs r :
  Steps (respondIndex cfg method idx) evs (Return r) ->
  (exists e, r = Some e /\ evs = []) \/
  (exists D T, r = None /\ ImageIndex.Digest idx = Ok D /\
     ImageIndex.MediaType idx = Ok T /\
     if String.eqb method MethodHead then
       exists S, ImageIndex.Size idx = Ok S /\
         evs = [EvHeader metaDockerContentDigest (Hash.String D);
                EvHeader metaContentType T;
                EvHeader metaContentLength (fmt_d S)]
     else evs = [EvRedirect (resolveLocation cfg (Hash.String D))
                   StatusSeeOther]).
Proof.
  unfold respondIndex. intros HS.
  destruct (ImageIndex.MediaType idx) as [T|e]; [|inv_steps; left; eauto].
  destruct (ImageIndex.Digest idx) as [D|e]; [|inv_steps; left; eauto].
  destruct (String.eqb method MethodHead).
  - destruct (ImageIndex.Size idx) as [S|e]; [|inv_steps; left; eauto].
    inv_steps. right. exists D, T. split; [done|]. split; [done|].
    split; [done|]. by exists S.
  - simpl in HS. inv_steps. right. by exists D, T.
Qed.

Lemma ServeManifest_phases method img also :
  ServeManifest cfg s method img also
  = (WriteImage cfg s img also >> respondManifest cfg method img).
Proof. done. Qed.

Lemma ServeIndex_phases method idx also :
  ServeIndex cfg s method idx also
  = (WriteIndexReferents cfg s idx >>
     WriteIndexManifest cfg s idx also >>
     respondIndex cfg method idx).
Proof.
  unfold ServeIndex, WriteIndexReferents, WriteIndexManifest, respondIndex.
  destruct (ImageIndex.IndexManifest idx) as [im|]; [|done]. simpl.
  f_equal.
  destruct (ImageIndex.RawManifest idx) as [b|]; [|done].
  destruct (ImageIndex.MediaType idx) as [mt|]; [|done].
  destruct (ImageIndex.Digest idx) as [d|]; [|done].
  unfold writeBlob. by destruct (client_Bucket _ _).
Qed.

Lemma imageTask_acts idx m a :
  a ∈ all_acts (imageTask cfg s idx m) ->
  exists kv,
    kv ∈ match ImageIndex.Image idx (Descriptor.Digest m) with
         | Ok img => imageBlobs img []
         | Err _ => []
         end /\ a = APut kv.1 kv.2.
Proof.
  unfold imageTask. destruct (ImageIndex.Image idx _) as [img|]; [|set_solver].
  rewrite WriteImage_phases. intros [Ha|Ha]%all_acts_andThen.
  - destruct (WriteReferents_acts _ _ _ _ Ha) as (kv & ? & ->).
    exists kv. split; [|done]. unfold imageBlobs. set_solver.
  - destruct (WriteManifest_acts _ _ _ _ _ Ha) as (kv & ? & ->).
    exists kv. split; [|done]. unfold imageBlobs. set_solver.
Qed.

Lemma WriteIndexReferents_acts idx a :
  a ∈ all_acts (WriteIndexReferents cfg s idx) ->
  exists kv, kv ∈ indexImageBlobs idx /\ a = APut kv.1 kv.2.
Proof.
  unfold WriteIndexReferents, indexImageBlobs.
  destruct (ImageIndex.IndexManifest idx) as [ms|]; [|set_solver]. simpl.
  rewrite app_nil_r, elem_of_flat_map. intros (t & Ht & Ha).
  apply list_elem_of_fmap in Ht as (m & -> & Hm).
  destruct (imageTask_acts _ _ _ Ha) as (kv & Hkv & ->).
  exists kv. split; [|done]. apply elem_of_flat_map. eauto.
Qed.

Lemma WriteIndexManifest_acts idx also a :
  a ∈ all_acts (WriteIndexManifest cfg s idx also) ->
  exists kv, kv ∈ indexManifestBlobs idx also /\ a = APut kv.1 kv.2.
Proof.
  unfold WriteIndexManifest, indexManifestBlobs.
  destruct (ImageIndex.RawManifest idx) as [b|]; [|set_solver].
  destruct (ImageIndex.MediaType idx) as [mt|]; [|set_solver].
  destruct (ImageIndex.Digest idx) as [d|]; [|set_solver].
  unfold writeBlob. destruct (client_Bucket _ _) eqn:Hb; [set_solver|]. simpl.
  rewrite app_nil_r. intros [->|Ha]%elem_of_cons.
  - eexists. split; [by left|done].
  - destruct (aliasTasks_acts _ _ _ _ _ _ _ Ha) as (al & Hal & ->).
    eexists. split; [right; apply list_elem_of_fmap; by exists al|done].
Qed.

Lemma WriteIndex_puts_only idx also :
  puts_only (WriteIndexReferents cfg s idx >> WriteIndexManifest cfg s idx also).
Proof.
  apply puts_only_andThen; intros a Ha.
  - destruct (WriteIndexReferents_acts _ _ Ha) as (kv & _ & ->). eauto.
  - destruct (WriteIndexManifest_acts _ _ _ Ha) as (kv & _ & ->). eauto.
Qed.

End ServeResponses.



(** ** A failed first half ends the whole call *)

Lemma step_Group_cons c t ts gerr k w :
  step c (Group (t :: ts) gerr k) w
  = (Group (step_task (step (descend c))
              (hd O (path c) mod length (t :: ts))%nat (t :: ts) gerr w).1.1
           (step_task (step (descend c))
              (hd O (path c) mod length (t :: ts))%nat (t :: ts) gerr w).1.2
           k,
     (step_task (step (descend c))
        (hd O (path c) mod length (t :: ts))%nat (t :: ts) gerr w).2).
Proof.
  cbn [step]. by destruct (step_task _ _ _ _ _) as [[? ?] ?].
Qed.

Lemma step_andThen c p q w :
  returned p = None ->
  step c (p >> q) w = ((step c p w).1 >> q, (step c p w).2).
Proof.
  destruct p as [r|key o k|n v k|u code k|ts gerr k]; try done.
  - intros _. simpl. by destruct (answer c).
  - intros _. destruct ts as [|t ts].
    + simpl. by destruct gerr.
    + change (Group (t :: ts) gerr k >> q) with (Group (t :: ts) gerr (k >> q)).
      by rewrite !step_Group_cons.
Qed.

Lemma run_andThen_error cs p q w e w1 :
  run cs p w = (Return (Some e), w1) ->
  run cs (p >> q) w = (Return (Some e), w1).
Proof.
  revert p w. induction cs as [|c cs IH]; intros p w; simpl.
  { by intros [= -> ->]. }
  destruct (returned p) eqn:Hp.
  { destruct p as [[e'|]| | | |]; try done; simpl;
      rewrite !run_returned; by intros [= -> ->]. }
  rewrite step_andThen by done.
  destruct (step c p w) as [p' w']. simpl. apply IH.
Qed.

Lemma run_app cs cs' p w :
  run (cs ++ cs') p w = run cs' (run cs p w).1 (run cs p w).2.
Proof.
  revert p w. induction cs as [|c cs IH]; intros p w; simpl; [done|].
  destruct (step c p w) as [p' w']. apply IH.
Qed.

Lemma fuel_andThen p q : (fuel p <= fuel (p >> q))%nat.
Proof.
  induction p as [[e|]| | | |ts gerr k IH]; simpl; lia.
Qed.

Lemma decisions_le sc m n :
  (m <= n)%nat -> exists cs, decisions sc n = decisions sc m ++ cs.
Proof.
  intros Hmn. exists (map sc (seq m (n - m))). unfold decisions.
  rewrite <- map_app, <- seq_app. do 2 f_equal. lia.
Qed.

Lemma exec_andThen_error sc p q w e w1 :
  exec sc p w = (Return (Some e), w1) ->
  exec sc (p >> q) w = (Return (Some e), w1).
Proof.
  unfold exec. intros H.
  destruct (decisions_le sc _ _ (fuel_andThen p q)) as [cs ->].
  rewrite run_app, (run_andThen_error _ _ _ _ _ _ H). simpl.
  apply run_returned.
Qed.

(** C5.  A serve call that fails emits nothing.  For ServeManifest and for
    ServeIndex, under every schedule:
    - whenever the call returns an error, no header and no redirect has
      been written to the response;
    - if the publish (WriteImage, or the writes of ServeIndex) run under the
      same schedule returns an error, the serve call returns that error
      and leaves the world as the failed publish left it;
    - if computing the digest, or for HEAD the media type or the size,
      fails, the call returns an error. *)
Theorem failed_serve_emits_nothing
    (cfg : config) (s : Storage) (method : string)
    (img : Image.t) (idx : ImageIndex.t) (also : list string)
    (sc : schedule) (w : world) :
  (let '(p', w') := exec sc (ServeManifest cfg s method img also) w in
   exists r, p' = Return r /\
     ((exists e, r = Some e) -> response (added w w') = []) /\
     (forall e w1,
        exec sc (WriteImage cfg s img also) w = (Return (Some e), w1) ->
        r = Some e /\ w' = w1) /\
     ((exists e, Image.Digest img = Err e \/
                 (method = MethodHead /\
                  (Image.MediaType img = Err e \/ Image.Size img = Err e))) ->
      exists e', r = Some e')) /\
  (let '(p', w') := exec sc (ServeIndex cfg s method idx also) w in
   exists r, p' = Return r /\
     ((exists e, r = Some e) -> response (added w w') = []) /\
     (forall e w1,
        exec sc (WriteIndexReferents cfg s idx >>
                 WriteIndexManifest cfg s idx also) w
        = (Return (Some e), w1) ->
        r = Some e /\ w' = w1) /\
     ((exists e, ImageIndex.Digest idx = Err e \/
                 ImageIndex.MediaType idx = Err e \/
                 (method = MethodHead /\ ImageIndex.Size idx = Err e)) ->
      exists e', r = Some e')).
Proof.
  split.
  - destruct (exec_spec sc (ServeManifest cfg s method img also) w)
      as (r & evs & Hex & Hsteps & _).
    rewrite Hex, added_apply_events. exists r. split; [done|].
    split; [|split].
    + intros [e ->]. rewrite ServeManifest_phases in Hsteps.
      apply Steps_andThen in Hsteps as (evs1 & [e1|] & H1 & H2).
      * destruct H2 as [-> _].
        apply (Steps_puts_only _ _ _ H1 (WriteImage_puts_only cfg s img also)).
      * destruct H2 as (evs2 & -> & H2). rewrite response_app.
        rewrite (Steps_puts_only _ _ _ H1 (WriteImage_puts_only cfg s img also)).
        by apply respondManifest_Steps in H2
          as [(e' & _ & ->)|(D0 & [=] & _)].
    + intros e w1 Hw.
      apply (exec_andThen_error _ _ (respondManifest cfg method img)) in Hw.
      rewrite <- ServeManifest_phases, Hex in Hw. by injection Hw as -> ->.
    + intros (e & He). apply (Steps_doomed _ _ _ Hsteps).
      rewrite ServeManifest_phases, doomed_andThen. apply orb_true_iff. right.
      unfold respondManifest.
      destruct He as [->|[-> He]]; [done|].
      destruct (Image.Digest img); [|done]. simpl.
      by destruct He as [->| ->]; [|destruct (Image.MediaType img)].
  - destruct (exec_spec sc (ServeIndex cfg s method idx also) w)
      as (r & evs & Hex & Hsteps & _).
    rewrite Hex, added_apply_events. exists r. split; [done|].
    assert (Hassoc :
      ServeIndex cfg s method idx also
      = ((WriteIndexReferents cfg s idx >> WriteIndexManifest cfg s idx also)
         >> respondIndex cfg method idx)).
    { rewrite ServeIndex_phases. unfold WriteIndexReferents.
      by destruct (ImageIndex.IndexManifest idx). }
    split; [|split].
    + intros [e ->]. rewrite Hassoc in Hsteps.
      apply Steps_andThen in Hsteps as (evs1 & [e1|] & H1 & H2).
      * destruct H2 as [-> _].
        apply (Steps_puts_only _ _ _ H1 (WriteIndex_puts_only cfg s idx also)).
      * destruct H2 as (evs2 & -> & H2). rewrite response_app.
        rewrite (Steps_puts_only _ _ _ H1 (WriteIndex_puts_only cfg s idx also)).
        by apply respondIndex_Steps in H2
          as [(e' & _ & ->)|(D0 & T0 & [=] & _)].
    + intros e w1 Hw.
      apply (exec_andThen_error _ _ (respondIndex cfg method idx)) in Hw.
      rewrite <- Hassoc, Hex in Hw. by injection Hw as -> ->.
    + intros (e & He). apply (Steps_doomed _ _ _ Hsteps).
      rewrite Hassoc, doomed_andThen. apply orb_true_iff. right.
      unfold respondIndex.
      destruct He as [->|[->|[-> He]]].
      * by destruct (ImageIndex.MediaType idx).
      * done.
      * destruct (ImageIndex.MediaType idx); [|done].
        destruct (ImageIndex.Digest idx); [|done]. simpl. by rewrite He.
Qed.

(** A serve call during which the store refuses one layer: the call returns
    the error and the response is untouched. *)
Lemma failed_serve_emits_nothing_witness :
  (exec Sample.stormy
     (ServeManifest Sample.cfg Sample.st "HEAD" Sample.imgA ["latest"])
     Sample.empty).1 = Return (Some "connection reset") /\
  response (trace (exec Sample.stormy
                     (ServeManifest Sample.cfg Sample.st "HEAD" Sample.imgA
                        ["latest"]) Sample.empty).2) = [].
Proof.
  destruct (failed_serve_emits_nothing Sample.cfg Sample.st "HEAD"
              Sample.imgA Sample.index ["latest"] Sample.stormy Sample.empty)
    as [H _].
  destruct (exec _ _ _) as [p' w'] eqn:Hex. simpl.
  destruct H as (r & -> & Hresp & Hpub & _).
  destruct (Hpub "connection reset"
              (exec Sample.stormy
                 (WriteImage Sample.cfg Sample.st Sample.imgA ["latest"])
                 Sample.empty).2) as [-> _].
  { by vm_compute. }
  split; [done|]. unfold added in Hresp. simpl in Hresp.
  rewrite drop_0 in Hresp. apply Hresp. by eexists.
Defined.

(** ** What a successful publish has written *)

(** The index yields its manifest list and every image it lists, and each
    of these images yields all its blobs. *)
Definition index_resolved (idx : ImageIndex.t) : Prop :=
  exists ms,
    ImageIndex.IndexManifest idx = Ok ms /\
    Forall (fun m => exists img,
              ImageIndex.Image idx (Descriptor.Digest m) = Ok img /\
              referents_resolved img /\ manifest_resolved img) ms.

Section PublishFacts.
Variable cfg : config.
Variable s : Storage.

Lemma WriteImage_clean img also :
  doomed (WriteImage cfg s img also) = false ->
  client_Bucket (client s) (bucket cfg) = None /\
  referents_resolved img /\ manifest_resolved img /\
  must_puts (WriteImage cfg s img also) = imageBlobs img also.
Proof.
  rewrite WriteImage_phases, doomed_andThen.
  intros [H1 H2]%orb_false_iff.
  rewrite (must_puts_andThen _ _ H1).
  destruct (WriteReferents_clean _ _ _ H1) as (? & ? & ->).
  destruct (WriteManifest_clean _ _ _ _ H2) as (? & ->). done.
Qed.

Lemma imageTasks_clean idx ms :
  existsb doomed (map (imageTask cfg s idx) ms) = false ->
  Forall (fun m => exists img,
            ImageIndex.Image idx (Descriptor.Digest m) = Ok img /\
            referents_resolved img /\ manifest_resolved img) ms /\
  flat_map must_puts (map (imageTask cfg s idx) ms)
  = flat_map (fun m => match ImageIndex.Image idx (Descriptor.Digest m) with
                       | Ok img => imageBlobs img []
                       | Err _ => []
                       end) ms.
Proof.
  induction ms as [|m ms IH]; simpl; [done|].
  intros [Hm Hms]%orb_false_iff. destruct (IH Hms) as [? ->].
  unfold imageTask in *.
  destruct (ImageIndex.Image idx (Descriptor.Digest m)) as [img|] eqn:Himg;
    [|done].
  destruct (WriteImage_clean _ _ Hm) as (_ & ? & ? & ->).
  split; [|done]. constructor; [|done]. by exists img.
Qed.

Lemma WriteIndexReferents_clean idx :
  doomed (WriteIndexReferents cfg s idx) = false ->
  index_resolved idx /\
  must_puts (WriteIndexReferents cfg s idx) = indexImageBlobs idx.
Proof.
  unfold WriteIndexReferents, indexImageBlobs, index_resolved.
  destruct (ImageIndex.IndexManifest idx) as [ms|]; [|done]. simpl.
  rewrite orb_false_r, app_nil_r. intros [? ->]%imageTasks_clean.
  split; [|done]. by exists ms.
Qed.

Lemma WriteIndexManifest_clean idx also :
  doomed (WriteIndexManifest cfg s idx also) = false ->
  must_puts (WriteIndexManifest cfg s idx also) = indexManifestBlobs idx also.
Proof.
  unfold WriteIndexManifest, indexManifestBlobs.
  destruct (ImageIndex.RawManifest idx) as [b|]; [|done].
  destruct (ImageIndex.MediaType idx) as [mt|]; [|done].
  destruct (ImageIndex.Digest idx) as [d|]; [|done].
  unfold writeBlob. destruct (client_Bucket _ _) eqn:Hb; [done|]. simpl.
  destruct (aliasTasks_clean cfg s d b mt also Hb) as [_ ->].
  by rewrite app_nil_r.
Qed.

Lemma respondIndex_no_put method idx key o :
  APut key o ∉ all_acts (respondIndex cfg method idx).
Proof.
  unfold respondIndex. repeat case_match; simpl; set_solver.
Qed.

Lemma respondManifest_no_put method img key o :
  APut key o ∉ all_acts (respondManifest cfg method img).
Proof.
  unfold respondManifest. repeat case_match; simpl; set_solver.
Qed.

Lemma respond_must_puts_index method idx :
  must_puts (respondIndex cfg method idx) = [].
Proof. unfold respondIndex. by repeat case_match. Qed.

Lemma respond_must_puts_manifest method img :
  must_puts (respondManifest cfg method img) = [].
Proof. unfold respondManifest. by repeat case_match. Qed.

End PublishFacts.

(** C2.  The manifest is written only after everything it refers to.
    Under every schedule the events of a WriteImage call split into a
    first part, in which only config and layer blobs are written, and a
    second part, in which only the manifest and its aliases are written;
    the second part is non-empty only if the image yielded its config and
    all its layers and the first part holds a successful write of each of
    them and no error; an error in the first part leaves the second part
    empty.  The same holds for ServeIndex, with the blobs of all the images
    of the index in the first part and the index manifest (and the
    response) in the second. *)
Theorem manifest_written_after_referents
    (cfg : config) (s : Storage) (method : string)
    (img : Image.t) (idx : ImageIndex.t) (also : list string)
    (sc : schedule) (w : world) :
  (let '(p', w') := exec sc (WriteImage cfg s img also) w in
   exists evs1 evs2,
     added w w' = evs1 ++ evs2 /\
     (forall key o out, EvPut key o out ∈ evs1 -> (key, o) ∈ referentBlobs img) /\
     (forall key o out,
        EvPut key o out ∈ evs2 -> (key, o) ∈ manifestBlobs img also) /\
     (evs2 <> [] ->
        referents_resolved img /\
        ok_puts evs1 ≡ₚ referentBlobs img /\
        Forall (fun ev => carries_error ev = false) evs1) /\
     ((exists ev, ev ∈ evs1 /\ carries_error ev = true) -> evs2 = [])) /\
  (let '(p', w') := exec sc (ServeIndex cfg s method idx also) w in
   exists evs1 evs2,
     added w w' = evs1 ++ evs2 /\
     (forall key o out,
        EvPut key o out ∈ evs1 -> (key, o) ∈ indexImageBlobs idx) /\
     (forall key o out,
        EvPut key o out ∈ evs2 -> (key, o) ∈ indexManifestBlobs idx also) /\
     (evs2 <> [] ->
        index_resolved idx /\
        ok_puts evs1 ≡ₚ indexImageBlobs idx /\
        Forall (fun ev => carries_error ev = false) evs1) /\
     ((exists ev, ev ∈ evs1 /\ carries_error ev = true) -> evs2 = [])).
Proof.
  split.
  - destruct (exec_spec sc (WriteImage cfg s img also) w)
      as (r & evs & Hex & Hsteps & _).
    rewrite Hex, added_apply_events. rewrite WriteImage_phases in Hsteps.
    apply Steps_andThen in Hsteps as (evs1 & r1 & H1 & H2).
    assert (Hputs1 : forall key o out,
              EvPut key o out ∈ evs1 -> (key, o) ∈ referentBlobs img).
    { intros key o out Hin.
      pose proof (Steps_acts _ _ _ H1 _ _ Hin eq_refl) as Ha.
      apply WriteReferents_acts in Ha as ([k' o'] & ? & [= -> ->]). done. }
    destruct r1 as [e|].
    + destruct H2 as [-> ->]. exists evs1, []. rewrite app_nil_r.
      split; [done|]. split; [done|]. split; [by intros ??? ?%elem_of_nil|].
      split; [done|]. done.
    + destruct H2 as (evs2 & -> & H2). exists evs1, evs2.
      split; [done|]. split; [done|]. split.
      { intros key o out Hin.
        pose proof (Steps_acts _ _ _ H2 _ _ Hin eq_refl) as Ha.
        apply WriteManifest_acts in Ha as ([k' o'] & ? & [= -> ->]). done. }
      pose proof (Steps_None_no_error _ _ H1) as Hne.
      split.
      * intros _.
        destruct (WriteReferents_clean _ _ _ (Steps_None_not_doomed _ _ H1))
          as (_ & ? & Hm).
        split; [done|]. split; [|done]. rewrite <- Hm.
        by apply Steps_must_puts.
      * intros (ev & Hin & Hev). rewrite Forall_forall in Hne.
        rewrite (Hne _ Hin) in Hev. done.
  - destruct (exec_spec sc (ServeIndex cfg s method idx also) w)
      as (r & evs & Hex & Hsteps & _).
    rewrite Hex, added_apply_events. rewrite ServeIndex_phases in Hsteps.
    apply Steps_andThen in Hsteps as (evs1 & r1 & H1 & H2).
    assert (Hputs1 : forall key o out,
              EvPut key o out ∈ evs1 -> (key, o) ∈ indexImageBlobs idx).
    { intros key o out Hin.
      pose proof (Steps_acts _ _ _ H1 _ _ Hin eq_refl) as Ha.
      apply WriteIndexReferents_acts in Ha as ([k' o'] & ? & [= -> ->]). done. }
    destruct r1 as [e|].
    + destruct H2 as [-> ->]. exists evs1, []. rewrite app_nil_r.
      split; [done|]. split; [done|]. split; [by intros ??? ?%elem_of_nil|].
      split; [done|]. done.
    + destruct H2 as (evs2 & -> & H2). exists evs1, evs2.
      split; [done|]. split; [done|]. split.
      { intros key o out Hin.
        pose proof (Steps_acts _ _ _ H2 _ _ Hin eq_refl) as Ha.
        apply all_acts_andThen in Ha as [Ha|Ha].
        - apply WriteIndexManifest_acts in Ha as ([k' o'] & ? & [= -> ->]).
          done.
        - by apply respondIndex_no_put in Ha. }
      pose proof (Steps_None_no_error _ _ H1) as Hne.
      split.
      * intros _.
        destruct (WriteIndexReferents_clean _ _ _
                    (Steps_None_not_doomed _ _ H1)) as (? & Hm).
        split; [done|]. split; [|done]. rewrite <- Hm.
        by apply Steps_must_puts.
      * intros (ev & Hin & Hev). rewrite Forall_forall in Hne.
        rewrite (Hne _ Hin) in Hev. done.
Qed.

(** ** The bucket after a list of writes *)

(** Equal keys carry equal objects. *)
Definition coherent (l : list (string * object)) : Prop :=
  forall k o1 o2, (k, o1) ∈ l -> (k, o2) ∈ l -> o1 = o2.

Lemma coherent_perm l l' : l ≡ₚ l' -> coherent l -> coherent l'.
Proof. intros Hp Hc k o1 o2. rewrite <- !Hp. apply Hc. Qed.

Lemma coherent_NoDup l : NoDup l.*1 -> coherent l.
Proof.
  intros Hnd k o1 o2 H1 H2.
  apply (elem_of_list_to_map_1 (M := gmap string) _ _ _ Hnd) in H1.
  apply (elem_of_list_to_map_1 (M := gmap string) _ _ _ Hnd) in H2.
  congruence.
Qed.

Lemma write_all_app l1 l2 st :
  write_all (l1 ++ l2) st = write_all l2 (write_all l1 st).
Proof. unfold write_all. by rewrite foldl_app. Qed.

Lemma write_all_union l st :
  write_all l st = list_to_map (reverse l) ∪ st.
Proof.
  revert st. induction l as [|[k o] l IH]; intros st.
  { simpl. by rewrite (left_id_L ∅ (∪)). }
  change (write_all ((k, o) :: l) st) with (write_all l (<[k:=o]> st)).
  rewrite IH, reverse_cons, list_to_map_app. simpl.
  rewrite insert_empty, <- (assoc_L (∪)).
  by rewrite <- insert_union_singleton_l.
Qed.

Lemma list_to_map_coherent_perm (l l' : list (string * object)) :
  coherent l -> l ≡ₚ l' ->
  (list_to_map l : gmap string object) = list_to_map l'.
Proof.
  intros Hc Hp. apply map_eq. intros k. apply option_eq. intros o.
  rewrite <- !elem_of_list_to_map'.
  - by rewrite Hp.
  - intros o' ? ?. by eapply (coherent_perm _ _ Hp Hc).
  - intros o' ? ?. by eapply Hc.
Qed.

Lemma write_all_coherent_perm l l' st :
  coherent l -> l ≡ₚ l' -> write_all l st = write_all l' st.
Proof.
  intros Hc Hp. rewrite !write_all_union. f_equal.
  apply list_to_map_coherent_perm.
  - eapply coherent_perm; [|done]. by rewrite reverse_Permutation.
  - by rewrite !reverse_Permutation.
Qed.

Lemma write_all_idem l st : write_all l (write_all l st) = write_all l st.
Proof.
  rewrite !write_all_union, (assoc_L (∪)). f_equal.
  apply (idemp_L (∪)).
Qed.

Lemma write_all_NoDup l st :
  NoDup l.*1 -> write_all l st = list_to_map l ∪ st.
Proof.
  intros Hnd. rewrite write_all_union. f_equal.
  apply list_to_map_coherent_perm.
  - eapply coherent_perm; [|by apply coherent_NoDup].
    by rewrite reverse_Permutation.
  - apply reverse_Permutation.
Qed.

Lemma write_all_lookup_other l st k :
  k ∉ l.*1 -> write_all l st !! k = st !! k.
Proof.
  intros Hk. rewrite write_all_union, lookup_union_r; [done|].
  apply not_elem_of_list_to_map_1. by rewrite fmap_reverse, elem_of_reverse.
Qed.

Lemma write_all_size l (st : gmap string object) :
  NoDup l.*1 -> (forall k, k ∈ l.*1 -> st !! k = None) ->
  base.size (write_all l st) = (base.size st + length l)%nat.
Proof.
  intros Hnd Hfresh. rewrite write_all_NoDup by done.
  rewrite map_size_disj_union.
  - rewrite map_size_list_to_map by done. lia.
  - apply map_disjoint_list_to_map_l, Forall_forall. intros [k o] Hin.
    apply Hfresh. apply list_elem_of_fmap. by exists (k, o).
Qed.

Lemma layerBlobs_length ls :
  Forall layer_resolved ls -> length (flat_map layerBlob ls) = length ls.
Proof.
  induction 1 as [|l ls (rc & lh & mt & Hc & Hd & Hm & _) _ IH]; [done|].
  simpl. rewrite length_app, IH. unfold layerBlob. by rewrite Hc, Hd, Hm.
Qed.

Lemma imageBlobs_length img also ls :
  referents_resolved img -> manifest_resolved img ->
  Image.Layers img = Ok ls ->
  length (imageBlobs img also) = (length ls + 2 + length also)%nat.
Proof.
  intros (ch & cb & ls' & Hch & Hcb & Hls & Hall) (b & mt & d & Hb & Hmt & Hd) Hl.
  rewrite Hls in Hl. injection Hl as ->.
  unfold imageBlobs, referentBlobs, manifestBlobs, configBlob, layerBlobs,
    manifestBlob, aliasBlobs.
  rewrite Hch, Hcb, Hls, Hb, Hmt, Hd, !length_app, layerBlobs_length by done.
  simpl. rewrite length_map. lia.
Qed.

(** What a call that returned nil did, read off the summary of [exec]. *)
Lemma exec_None sc p w w' :
  exec sc p w = (Return None, w') ->
  exists evs,
    Steps p evs (Return None) /\ added w w' = evs /\
    store w' = write_all (ok_puts evs) (store w).
Proof.
  intros Hex. destruct (exec_spec sc p w) as (r & evs & Hex' & HS & _).
  rewrite Hex in Hex'. injection Hex' as <- ->. exists evs.
  split; [done|]. split; [apply added_apply_events|apply store_apply_events].
Qed.

(** C4, as amended.  If WriteImage returns nil for an image with N layers,
    the writes the store accepted are exactly N+2 blobs (the config, each
    layer and the manifest, each under its digest) and one object per
    entry of the alias list, and no other key of the bucket has changed.
    When the keys of these writes are pairwise distinct, the bucket is the
    old one overwritten with them, and if none of them was there before it
    has gained exactly N + 2 + (number of aliases) objects. *)
Theorem writeImage_fan_out
    (cfg : config) (s : Storage) (img : Image.t) (also : list string)
    (ls : list Layer.t) (sc : schedule) (w w' : world) :
  Image.Layers img = Ok ls ->
  exec sc (WriteImage cfg s img also) w = (Return None, w') ->
  ok_puts (added w w') ≡ₚ imageBlobs img also /\
  length (imageBlobs img also) = (length ls + 2 + length also)%nat /\
  (forall key, key ∉ (imageBlobs img also).*1 ->
     store w' !! key = store w !! key) /\
  (NoDup (imageBlobs img also).*1 ->
     store w' = list_to_map (imageBlobs img also) ∪ store w /\
     ((forall key, key ∈ (imageBlobs img also).*1 -> store w !! key = None) ->
      base.size (store w')
      = (base.size (store w) + (length ls + 2 + length also))%nat)).
Proof.
  intros Hls (evs & HS & -> & Hst)%exec_None.
  destruct (WriteImage_clean cfg s img also (Steps_None_not_doomed _ _ HS))
    as (_ & Hr & Hm & Hmust).
  pose proof (Steps_must_puts _ _ HS) as Hperm. rewrite Hmust in Hperm.
  pose proof (imageBlobs_length img also ls Hr Hm Hls) as Hlen.
  split; [done|]. split; [done|]. split.
  - intros key Hkey. rewrite Hst. apply write_all_lookup_other.
    by rewrite Hperm.
  - intros Hnd.
    assert (Hw : store w' = write_all (imageBlobs img also) (store w)).
    { rewrite Hst. apply write_all_coherent_perm; [|done].
      apply coherent_NoDup. by rewrite Hperm. }
    split.
    + rewrite Hw. by apply write_all_NoDup.
    + intros Hfresh. rewrite Hw, write_all_size by done. by rewrite Hlen.
Qed.

(** An image with two distinct layers and one alias, written into an empty
    bucket: five objects. *)
Lemma writeImage_fan_out_witness :
  base.size (store (exec Sample.calm
                      (WriteImage Sample.cfg Sample.st Sample.imgA ["latest"])
                      Sample.empty).2) = 5%nat.
Proof.
  destruct (exec Sample.calm
              (WriteImage Sample.cfg Sample.st Sample.imgA ["latest"])
              Sample.empty) as [p' w'] eqn:Hex.
  assert (Hp : p' = Return None).
  { vm_compute in Hex. by injection Hex as <- _. }
  subst p'.
  destruct (writeImage_fan_out Sample.cfg Sample.st Sample.imgA ["latest"]
              _ Sample.calm Sample.empty w' eq_refl Hex)
    as (_ & _ & _ & H).
  destruct H as [_ H]; [by vm_compute; repeat constructor; set_solver|].
  simpl. rewrite H; [done|]. intros key _. apply lookup_empty.
Defined.

(** The claim as stated fails: an image whose two layers are the same blob
    leaves three objects in an empty bucket, not N + 2 = 4. *)
Lemma writeImage_fan_out_counterexample :
  ~ (forall (cfg : config) (s : Storage) (img : Image.t) (also : list string)
            (ls : list Layer.t) (sc : schedule) (w' : world),
       Image.Layers img = Ok ls ->
       exec sc (WriteImage cfg s img also) (mkWorld ∅ []) = (Return None, w') ->
       base.size (store w') = (length ls + 2 + length also)%nat).
Proof.
  intros H.
  specialize (H Sample.cfg Sample.st Sample.imgDup [] _ Sample.calm
                (exec Sample.calm
                   (WriteImage Sample.cfg Sample.st Sample.imgDup [])
                   (mkWorld ∅ [])).2 eq_refl).
  assert (Hex : exec Sample.calm
                  (WriteImage Sample.cfg Sample.st Sample.imgDup [])
                  (mkWorld ∅ [])
                = (Return None,
                   (exec Sample.calm
                      (WriteImage Sample.cfg Sample.st Sample.imgDup [])
                      (mkWorld ∅ [])).2)).
  { by vm_compute. }
  specialize (H Hex). vm_compute in H. discriminate H.
Qed.

(** ** The bucket after a successful WriteImage *)

Lemma Steps_PutObject_None key o k evs :
  Steps (PutObject key o k) evs (Return None) ->
  exists evs', evs = EvPut key o None :: evs' /\ Steps k evs' (Return None).
Proof.
  inversion 1 as [|? ? ? ? ? HS Hrest]; subst.
  inversion HS; subst; [by eexists|].
  by apply Steps_Return_inv in Hrest as [_ [=]].
Qed.

Lemma aliasBlobs_coherent img also : coherent (aliasBlobs img also).
Proof.
  unfold aliasBlobs.
  destruct (Image.RawManifest img) as [b|]; [|by intros ??? ?%elem_of_nil].
  destruct (Image.MediaType img) as [mt|]; [|by intros ??? ?%elem_of_nil].
  destruct (Image.Digest img) as [d|]; [|by intros ??? ?%elem_of_nil].
  intros k o1 o2 (x1 & [= _ ->] & _)%list_elem_of_fmap
    (x2 & [= _ ->] & _)%list_elem_of_fmap. done.
Qed.

Section WriteImageStore.
Variable cfg : config.
Variable s : Storage.

Lemma WriteReferents_shape img :
  doomed (WriteReferents cfg s img) = false ->
  exists c ls,
    configBlob img = [c] /\ Image.Layers img = Ok ls /\
    WriteReferents cfg s img
    = PutObject c.1 c.2 (Group (map (layerTask cfg s) ls) None (Return None)).
Proof.
  unfold WriteReferents, configBlob.
  destruct (Image.ConfigName img) as [ch|]; [|done].
  destruct (Image.RawConfigFile img) as [cb|]; [|done].
  unfold writeBlob. destruct (client_Bucket _ _) eqn:Hb; [done|]. simpl.
  destruct (Image.Layers img) as [ls|]; [|done]. intros _.
  by eexists (_, _), ls.
Qed.

Lemma WriteManifest_shape img also :
  doomed (WriteManifest cfg s img also) = false ->
  exists m ts,
    manifestBlob img = [m] /\
    flat_map must_puts ts = aliasBlobs img also /\
    WriteManifest cfg s img also
    = PutObject m.1 m.2 (Group ts None (Return None)).
Proof.
  unfold WriteManifest, manifestBlob, aliasBlobs.
  destruct (Image.RawManifest img) as [b|]; [|done].
  destruct (Image.MediaType img) as [mt|]; [|done].
  destruct (Image.Digest img) as [d|]; [|done].
  unfold writeBlob. destruct (client_Bucket _ _) eqn:Hb; [done|]. simpl.
  intros _. eexists (_, _), _. split; [done|]. split; [|done].
  by destruct (aliasTasks_clean cfg s d b mt also Hb) as [_ ->].
Qed.

(** Whatever the interleaving, a call that returned nil leaves the bucket
    it would leave by writing the blobs one after the other, provided
    layers with the same digest are the same object. *)
Lemma WriteImage_store img also evs st :
  Steps (WriteImage cfg s img also) evs (Return None) ->
  coherent (layerBlobs img) ->
  write_all (ok_puts evs) st = write_all (imageBlobs img also) st.
Proof.
  intros HS Hcoh. rewrite WriteImage_phases in HS.
  apply Steps_andThen in HS as (evs1 & [e|] & H1 & H2); [by destruct H2|].
  destruct H2 as (evs2 & -> & H2).
  pose proof (Steps_None_not_doomed _ _ H1) as Hd1.
  pose proof (Steps_None_not_doomed _ _ H2) as Hd2.
  destruct (WriteReferents_shape _ Hd1) as ([ck co] & ls & Hc & Hls & Hshape1).
  destruct (WriteManifest_shape _ _ Hd2) as ([mk mo] & ts & Hm & Hts & Hshape2).
  destruct (WriteReferents_clean _ _ _ Hd1) as (_ & _ & Hmust1).
  rewrite Hshape1 in H1, Hmust1. rewrite Hshape2 in H2. simpl in *.
  apply Steps_PutObject_None in H1 as (evs1' & -> & H1).
  apply Steps_PutObject_None in H2 as (evs2' & -> & H2).
  apply Steps_must_puts in H1, H2. simpl in H1, H2.
  rewrite app_nil_r in H1, H2, Hmust1. rewrite Hts in H2.
  unfold referentBlobs in Hmust1. rewrite Hc in Hmust1.
  injection Hmust1 as Hmust1. rewrite Hmust1 in H1.
  unfold imageBlobs, referentBlobs, manifestBlobs. rewrite Hc, Hm.
  rewrite ok_puts_app, !write_all_app.
  change (ok_puts (EvPut ck co None :: evs1'))
    with ([(ck, co)] ++ ok_puts evs1').
  change (ok_puts (EvPut mk mo None :: evs2'))
    with ([(mk, mo)] ++ ok_puts evs2').
  rewrite !write_all_app.
  rewrite (write_all_coherent_perm (ok_puts evs1') (layerBlobs img));
    [|by eapply coherent_perm|done].
  rewrite (write_all_coherent_perm (ok_puts evs2') (aliasBlobs img also));
    [done| |done].
  eapply coherent_perm; [done|apply aliasBlobs_coherent].
Qed.

End WriteImageStore.

(** C7.  Publishing is idempotent.  If layers with the same digest are the
    same object, WriteImage returned nil, and the store refuses nothing
    while the same image is written again, then the second call returns nil
    as well, whatever its schedule, and leaves the bucket exactly as the
    first call left it. *)
Theorem writeImage_idempotent
    (cfg : config) (s : Storage) (img : Image.t) (also : list string)
    (sc1 sc2 : schedule) (w w1 : world) :
  coherent (layerBlobs img) ->
  exec sc1 (WriteImage cfg s img also) w = (Return None, w1) ->
  (forall n, answer (sc2 n) = None) ->
  exists w2,
    exec sc2 (WriteImage cfg s img also) w1 = (Return None, w2) /\
    store w2 = store w1.
Proof.
  intros Hcoh (evs1 & HS1 & _ & Hst1)%exec_None Hcalm.
  destruct (exec_spec sc2 (WriteImage cfg s img also) w1)
    as (r & evs2 & Hex2 & HS2 & Hans).
  assert (r = None) as ->.
  { apply (Steps_clean _ _ _ HS2); [by eapply Steps_None_not_doomed|].
    apply Forall_forall. intros ev Hin.
    destruct ev as [key o [e|]| | | |]; try done.
    destruct (Hans _ _ _ Hin) as (n & Hn). by rewrite Hcalm in Hn. }
  eexists. split; [done|].
  rewrite store_apply_events, Hst1.
  rewrite !(WriteImage_store cfg s img also) by done.
  apply write_all_idem.
Qed.

(** The sample image written twice, under two different schedules. *)
Lemma writeImage_idempotent_witness :
  exists w1 w2,
    exec Sample.calm (WriteImage Sample.cfg Sample.st Sample.imgA ["latest"])
      Sample.empty = (Return None, w1) /\
    exec (fun n => mkChoice [S n] None)
      (WriteImage Sample.cfg Sample.st Sample.imgA ["latest"]) w1
    = (Return None, w2) /\
    store w2 = store w1.
Proof.
  destruct (exec Sample.calm
              (WriteImage Sample.cfg Sample.st Sample.imgA ["latest"])
              Sample.empty) as [p1 w1] eqn:Hex.
  assert (Hp : p1 = Return None).
  { vm_compute in Hex. by injection Hex as <- _. }
  subst p1.
  destruct (writeImage_idempotent Sample.cfg Sample.st Sample.imgA ["latest"]
              Sample.calm (fun n => mkChoice [S n] None) Sample.empty w1)
    as (w2 & H2 & Hst).
  - apply coherent_NoDup. vm_compute. repeat constructor; set_solver.
  - exact Hex.
  - done.
  - by exists w1, w2.
Defined.

(** ** Digests of what is written *)

(** The image model is content-addressed by [hash]: the digests it reports
    are the hashes of the bytes it hands out. *)
Definition consistent_image (hash : bytes -> Hash.t) (img : Image.t) : Prop :=
  (forall ch cb,
     Image.ConfigName img = Ok ch -> Image.RawConfigFile img = Ok cb ->
     ch = hash cb) /\
  (forall ls l rc lh,
     Image.Layers img = Ok ls -> l ∈ ls ->
     Layer.Compressed l = Ok rc -> Layer.Digest l = Ok lh ->
     lh = hash (rc_data rc)) /\
  (forall d b,
     Image.Digest img = Ok d -> Image.RawManifest img = Ok b -> d = hash b).

Definition consistent_index (hash : bytes -> Hash.t) (idx : ImageIndex.t)
    : Prop :=
  (forall d b,
     ImageIndex.Digest idx = Ok d -> ImageIndex.RawManifest idx = Ok b ->
     d = hash b) /\
  (forall h img,
     ImageIndex.Image idx h = Ok img -> consistent_image hash img).

(** The digest metadata the service reports for a stored object: what
    BlobExists reads. *)
Definition stored_digest (o : object) : list string :=
  hget (object_meta o) ("X-Oss-Meta-" +:+ metaDockerContentDigest).

(** The object's digest metadata is the hash of its bytes. *)
Definition digest_matches (hash : bytes -> Hash.t) (o : object) : Prop :=
  stored_digest o = [Hash.String (hash (obj_body o))].

(** The object is stored under the name that is the string of its digest. *)
Definition digest_keyed (hash : bytes -> Hash.t) (key : string) (o : object)
    : Prop :=
  key = objectKey (Hash.String (hash (obj_body o))) /\ digest_matches hash o.

(** The object is stored under one of the alias names and carries the
    digest of its bytes. *)
Definition alias_keyed (hash : bytes -> Hash.t) (also : list string)
    (key : string) (o : object) : Prop :=
  (exists a, a ∈ also /\ key = objectKey a) /\ digest_matches hash o.

Lemma stored_digest_blobObject h rc ct :
  stored_digest (blobObject h rc ct) = [Hash.String h].
Proof.
  unfold stored_digest, hget, object_meta, blobObject, set_headers,
    oss_ContentType, oss_Meta. simpl.
  rewrite lookup_insert_ne by done.
  by rewrite lookup_insert_eq.
Qed.

Section DigestFacts.
Variable hash : bytes -> Hash.t.

Lemma configBlob_keyed img kv :
  consistent_image hash img -> kv ∈ configBlob img ->
  digest_keyed hash kv.1 kv.2.
Proof.
  intros (Hc & _ & _). unfold configBlob.
  destruct (Image.ConfigName img) as [ch|] eqn:Hch; [|by intros ?%elem_of_nil].
  destruct (Image.RawConfigFile img) as [cb|] eqn:Hcb;
    [|by intros ?%elem_of_nil].
  intros ->%list_elem_of_singleton. rewrite (Hc ch cb) by done.
  split; [done|]. apply stored_digest_blobObject.
Qed.

Lemma layerBlobs_keyed img kv :
  consistent_image hash img -> kv ∈ layerBlobs img ->
  digest_keyed hash kv.1 kv.2.
Proof.
  intros (_ & Hl & _). unfold layerBlobs.
  destruct (Image.Layers img) as [ls|] eqn:Hls; [|by intros ?%elem_of_nil].
  intros (l & Hin & Hkv)%elem_of_flat_map. unfold layerBlob in Hkv.
  destruct (Layer.Compressed l) as [rc|] eqn:Hrc; [|by apply elem_of_nil in Hkv].
  destruct (Layer.Digest l) as [lh|] eqn:Hlh; [|by apply elem_of_nil in Hkv].
  destruct (Layer.MediaType l) as [mt|]; [|by apply elem_of_nil in Hkv].
  apply list_elem_of_singleton in Hkv as ->.
  rewrite (Hl ls l rc lh) by done.
  split; [done|]. apply stored_digest_blobObject.
Qed.

Lemma manifestBlob_keyed img kv :
  consistent_image hash img -> kv ∈ manifestBlob img ->
  digest_keyed hash kv.1 kv.2.
Proof.
  intros (_ & _ & Hm). unfold manifestBlob.
  destruct (Image.RawManifest img) as [b|] eqn:Hb; [|by intros ?%elem_of_nil].
  destruct (Image.MediaType img) as [mt|]; [|by intros ?%elem_of_nil].
  destruct (Image.Digest img) as [d|] eqn:Hd; [|by intros ?%elem_of_nil].
  intros ->%list_elem_of_singleton. rewrite (Hm d b) by done.
  split; [done|]. apply stored_digest_blobObject.
Qed.

Lemma aliasBlobs_keyed img also kv :
  consistent_image hash img -> kv ∈ aliasBlobs img also ->
  alias_keyed hash also kv.1 kv.2.
Proof.
  intros (_ & _ & Hm). unfold aliasBlobs.
  destruct (Image.RawManifest img) as [b|] eqn:Hb; [|by intros ?%elem_of_nil].
  destruct (Image.MediaType img) as [mt|]; [|by intros ?%elem_of_nil].
  destruct (Image.Digest img) as [d|] eqn:Hd; [|by intros ?%elem_of_nil].
  intros (a & -> & Ha)%list_elem_of_fmap. rewrite (Hm d b) by done.
  split; [by exists a|]. apply stored_digest_blobObject.
Qed.

Lemma imageBlobs_keyed img also kv :
  consistent_image hash img -> kv ∈ imageBlobs img also ->
  digest_keyed hash kv.1 kv.2 \/ alias_keyed hash also kv.1 kv.2.
Proof.
  intros Hc. unfold imageBlobs, referentBlobs, manifestBlobs.
  rewrite !elem_of_app. intros [[?|?]|[?|?]];
    eauto using configBlob_keyed, layerBlobs_keyed, manifestBlob_keyed,
      aliasBlobs_keyed.
Qed.

Lemma indexImageBlobs_keyed idx kv :
  consistent_index hash idx -> kv ∈ indexImageBlobs idx ->
  digest_keyed hash kv.1 kv.2.
Proof.
  intros (_ & Himg). unfold indexImageBlobs.
  destruct (ImageIndex.IndexManifest idx) as [ms|]; [|by intros ?%elem_of_nil].
  intros (m & _ & Hkv)%elem_of_flat_map.
  destruct (ImageIndex.Image idx (Descriptor.Digest m)) as [img|] eqn:Hi;
    [|by apply elem_of_nil in Hkv].
  destruct (imageBlobs_keyed img [] kv (Himg _ _ Hi) Hkv)
    as [?|[(a & Ha & _) _]]; [done|].
  by apply elem_of_nil in Ha.
Qed.

Lemma indexManifestBlobs_keyed idx also kv :
  consistent_index hash idx -> kv ∈ indexManifestBlobs idx also ->
  digest_keyed hash kv.1 kv.2 \/ alias_keyed hash also kv.1 kv.2.
Proof.
  intros (Hm & _). unfold indexManifestBlobs.
  destruct (ImageIndex.RawManifest idx) as [b|] eqn:Hb;
    [|by intros ?%elem_of_nil].
  destruct (ImageIndex.MediaType idx) as [mt|]; [|by intros ?%elem_of_nil].
  destruct (ImageIndex.Digest idx) as [d|] eqn:Hd; [|by intros ?%elem_of_nil].
  rewrite (Hm d b) by done.
  intros [->|(a & -> & Ha)%list_elem_of_fmap]%elem_of_cons.
  - left. split; [done|]. apply stored_digest_blobObject.
  - right. split; [by exists a|]. apply stored_digest_blobObject.
Qed.

End DigestFacts.

Lemma write_all_lookup l st k o :
  write_all l st !! k = Some o -> (k, o) ∈ l \/ st !! k = Some o.
Proof.
  rewrite write_all_union. intros [H|[_ H]]%lookup_union_Some_raw; [|by right].
  left. apply elem_of_list_to_map_2 in H. by rewrite elem_of_reverse in H.
Qed.

Lemma elem_of_ok_puts key o evs :
  (key, o) ∈ ok_puts evs <-> EvPut key o None ∈ evs.
Proof.
  unfold ok_puts. rewrite elem_of_flat_map. split.
  - intros (ev & Hin & Hev).
    destruct ev as [k' o' [e|]| | | |]; try by apply elem_of_nil in Hev.
    by apply list_elem_of_singleton in Hev as [= -> ->].
  - intros Hin. exists (EvPut key o None). split; [done|]. by left.
Qed.

Lemma WriteImage_acts cfg s img also key o :
  APut key o ∈ all_acts (WriteImage cfg s img also) ->
  (key, o) ∈ imageBlobs img also.
Proof.
  rewrite WriteImage_phases. unfold imageBlobs.
  intros [Ha|Ha]%all_acts_andThen.
  - apply WriteReferents_acts in Ha as ([k' o'] & ? & [= -> ->]).
    apply elem_of_app. by left.
  - apply WriteManifest_acts in Ha as ([k' o'] & ? & [= -> ->]).
    apply elem_of_app. by right.
Qed.

Lemma ServeIndex_acts cfg s method idx also key o :
  APut key o ∈ all_acts (ServeIndex cfg s method idx also) ->
  (key, o) ∈ indexImageBlobs idx ++ indexManifestBlobs idx also.
Proof.
  rewrite ServeIndex_phases.
  intros [Ha|[Ha|Ha]%all_acts_andThen]%all_acts_andThen.
  - apply WriteIndexReferents_acts in Ha as ([k' o'] & ? & [= -> ->]).
    apply elem_of_app. by left.
  - apply WriteIndexManifest_acts in Ha as ([k' o'] & ? & [= -> ->]).
    apply elem_of_app. by right.
  - by apply respondIndex_no_put in Ha.
Qed.

(** C6.  Provided the image model is content-addressed (the digests it
    reports are the hashes of the bytes it hands out), every object that
    WriteImage or ServeIndex writes, under every schedule, carries as its
    digest metadata the hash of its own bytes, and is written either under
    the name that is the string of that digest (object key blobs/<digest>,
    the key BlobExists looks the digest up under) or, for the manifest
    only, under one of the alias names.  Hence every object found in the
    bucket after the call was there before or is of one of these two
    kinds. *)
Theorem written_blobs_digest_consistent
    (hash : bytes -> Hash.t) (cfg : config) (s : Storage) (method : string)
    (img : Image.t) (idx : ImageIndex.t) (also : list string)
    (sc : schedule) (w : world) :
  consistent_image hash img -> consistent_index hash idx ->
  (let '(p', w') := exec sc (WriteImage cfg s img also) w in
   (forall key o out,
      EvPut key o out ∈ added w w' ->
      digest_keyed hash key o \/ alias_keyed hash also key o) /\
   (forall key o,
      store w' !! key = Some o ->
      store w !! key = Some o \/
      digest_keyed hash key o \/ alias_keyed hash also key o)) /\
  (let '(p', w') := exec sc (ServeIndex cfg s method idx also) w in
   (forall key o out,
      EvPut key o out ∈ added w w' ->
      digest_keyed hash key o \/ alias_keyed hash also key o) /\
   (forall key o,
      store w' !! key = Some o ->
      store w !! key = Some o \/
      digest_keyed hash key o \/ alias_keyed hash also key o)).
Proof.
  intros Himg Hidx. split.
  - destruct (exec_spec sc (WriteImage cfg s img also) w)
      as (r & evs & Hex & HS & _).
    rewrite Hex, added_apply_events, store_apply_events.
    assert (Hev : forall key o out,
              EvPut key o out ∈ evs ->
              digest_keyed hash key o \/ alias_keyed hash also key o).
    { intros key o out Hin.
      pose proof (Steps_acts _ _ _ HS _ _ Hin eq_refl) as Ha.
      apply WriteImage_acts in Ha.
      apply (imageBlobs_keyed hash img also (key, o) Himg Ha). }
    split; [done|]. intros key o [Hin|?]%write_all_lookup; [|by left].
    right. apply elem_of_ok_puts in Hin. by eapply Hev.
  - destruct (exec_spec sc (ServeIndex cfg s method idx also) w)
      as (r & evs & Hex & HS & _).
    rewrite Hex, added_apply_events, store_apply_events.
    assert (Hev : forall key o out,
              EvPut key o out ∈ evs ->
              digest_keyed hash key o \/ alias_keyed hash also key o).
    { intros key o out Hin.
      pose proof (Steps_acts _ _ _ HS _ _ Hin eq_refl) as Ha.
      apply ServeIndex_acts in Ha. apply elem_of_app in Ha as [Ha|Ha].
      - left. apply (indexImageBlobs_keyed hash idx (key, o) Hidx Ha).
      - apply (indexManifestBlobs_keyed hash idx also (key, o) Hidx Ha). }
    split; [done|]. intros key o [Hin|?]%write_all_lookup; [|by left].
    right. apply elem_of_ok_puts in Hin. by eapply Hev.
Qed.

Lemma Sample_image_consistent config layers manifest :
  consistent_image Sample.toy_hash (Sample.image config layers manifest).
Proof.
  split; [|split]; simpl.
  - by intros ch cb [= <-] [= <-].
  - intros ls l rc lh [= <-] (x & -> & _)%list_elem_of_fmap. simpl.
    by intros [= <-] [= <-].
  - by intros d b [= <-] [= <-].
Qed.

Lemma Sample_index_consistent imgs manifest :
  Forall (consistent_image Sample.toy_hash) imgs ->
  consistent_index Sample.toy_hash (Sample.index_of imgs manifest).
Proof.
  intros Hall. split; simpl.
  - by intros d b [= <-] [= <-].
  - intros h img. destruct (find _ imgs) as [img'|] eqn:Hf; [|done].
    intros [= <-]. apply find_some in Hf as [Hin _].
    rewrite Forall_forall in Hall. apply Hall. by apply list_elem_of_In.
Qed.

(** The manifest of the sample image, as found in the bucket after the
    call: stored under the string of the hash of its bytes. *)
Lemma written_blobs_digest_consistent_witness :
  digest_keyed Sample.toy_hash
    (objectKey (Hash.String (Sample.toy_hash (Sample.blob "manifestA"))))
    (blobObject (Sample.toy_hash (Sample.blob "manifestA"))
       (NopCloser (Sample.blob "manifestA"))
       "application/vnd.docker.distribution.manifest.v2+json").
Proof.
  destruct (written_blobs_digest_consistent Sample.toy_hash Sample.cfg
              Sample.st "GET" Sample.imgA Sample.index ["latest"]
              Sample.calm Sample.empty) as [H _].
  - apply Sample_image_consistent.
  - apply Sample_index_consistent. repeat constructor;
      apply Sample_image_consistent.
  - destruct (exec _ _ _) as [p' w'] eqn:Hex. destruct H as [_ H].
    vm_compute in Hex. injection Hex as _ <-.
    edestruct H as [Hold|[Hd|[(a & Ha & Hkey) _]]]; [| | exact Hd |].
    + by vm_compute.
    + by vm_compute in Hold.
    + apply list_elem_of_singleton in Ha as ->. by vm_compute in Hkey.
Defined.

(** ** Reading back what was written *)

Lemma ParseInt_string_of_uint u :
  u <> Decimal.Nil ->
  - 2 ^ 63 <= Z.of_uint u < 2 ^ 63 ->
  ParseInt (NilZero.string_of_uint u) = Ok (Z.of_uint u).
Proof.
  intros Hu Hrange.
  assert (Hs : exists c rest,
             NilZero.string_of_uint u = String c rest /\
             Ascii.eqb c "+" = false /\ Ascii.eqb c "-" = false).
  { destruct u; try done; eexists _, _; (split; [reflexivity|done]). }
  destruct Hs as (c & rest & Hs & Hp & Hm).
  unfold ParseInt. rewrite Hs, Hp, Hm, <- Hs, NilZero.usu by done. simpl.
  destruct (Z.leb_spec (- 2 ^ 63) (Z.of_uint u)); [|lia].
  destruct (Z.ltb_spec (Z.of_uint u) (2 ^ 63)); [done|lia].
Qed.

(** The decimal rendering of a size is read back by ParseInt. *)
Lemma ParseInt_fmt_d n : 0 <= n < 2 ^ 63 -> ParseInt (fmt_d n) = Ok n.
Proof.
  intros Hn. unfold fmt_d. pose proof (DecimalZ.of_to n) as Hof.
  destruct n as [|p|p]; [done| |lia].
  simpl in *. rewrite ParseInt_string_of_uint; [by rewrite Hof| |].
  - apply Unsigned.to_uint_nonnil.
  - rewrite Hof. lia.
Qed.

(** A digest that NewHash reads back from its own string. *)
Definition valid_digest (h : Hash.t) : Prop := NewHash (Hash.String h) = Ok h.

(** A blob stored by writeBlob is found by BlobExists under its name, with
    the digest, media type and size it was written with. *)
Lemma BlobExists_stored cfg s (st : gmap string object) name h rc ct :
  client_Bucket (client s) (bucket cfg) = None ->
  st !! objectKey name = Some (blobObject h rc ct) ->
  valid_digest h ->
  Z.of_nat (length (rc_data rc)) < 2 ^ 63 ->
  BlobExists cfg s (GetObjectDetailedMeta st) name
  = Returns (Descriptor.mk h ct (Z.of_nat (length (rc_data rc)))).
Proof.
  intros Hb Hst Hh Hlen. unfold BlobExists, GetObjectDetailedMeta.
  rewrite Hb, Hst.
  change (hget (object_meta (blobObject h rc ct))
            ("X-Oss-Meta-" +:+ metaDockerContentDigest))
    with (stored_digest (blobObject h rc ct)).
  rewrite stored_digest_blobObject, Hh.
  unfold hget, object_meta, blobObject, set_headers, oss_ContentType, oss_Meta.
  simpl. rewrite lookup_insert_eq. simpl.
  rewrite ParseInt_fmt_d by lia.
  rewrite !lookup_insert_ne by done. by rewrite lookup_insert_eq.
Qed.

Section ServeIndexFacts.
Variable cfg : config.
Variable s : Storage.

Lemma WriteIndexManifest_bucket idx also :
  doomed (WriteIndexManifest cfg s idx also) = false ->
  client_Bucket (client s) (bucket cfg) = None.
Proof.
  unfold WriteIndexManifest.
  destruct (ImageIndex.RawManifest idx) as [b|]; [|done].
  destruct (ImageIndex.MediaType idx) as [mt|]; [|done].
  destruct (ImageIndex.Digest idx) as [d|]; [|done].
  unfold writeBlob. by destruct (client_Bucket _ _).
Qed.

Lemma ServeIndex_clean method idx also :
  doomed (ServeIndex cfg s method idx also) = false ->
  client_Bucket (client s) (bucket cfg) = None /\
  index_resolved idx /\
  must_puts (ServeIndex cfg s method idx also)
  = indexImageBlobs idx ++ indexManifestBlobs idx also.
Proof.
  rewrite ServeIndex_phases, !doomed_andThen.
  intros [H1 [H2 H3]%orb_false_iff]%orb_false_iff.
  rewrite must_puts_andThen, must_puts_andThen by done.
  destruct (WriteIndexReferents_clean _ _ _ H1) as [? ->].
  rewrite (WriteIndexManifest_clean _ _ _ _ H2), respond_must_puts_index.
  rewrite app_nil_r. split; [|done]. by eapply WriteIndexManifest_bucket.
Qed.

End ServeIndexFacts.

(** Every blob of an image or of an index manifest is an object built by
    writeBlob, stored under the key of some name. *)
Lemma imageBlobs_form img also kv :
  kv ∈ imageBlobs img also ->
  exists name h rc ct, kv = (objectKey name, blobObject h rc ct).
Proof.
  unfold imageBlobs, referentBlobs, manifestBlobs, configBlob, layerBlobs,
    manifestBlob, aliasBlobs. rewrite !elem_of_app. intros [[H|H]|[H|H]].
  - repeat case_match; try by apply elem_of_nil in H.
    apply list_elem_of_singleton in H as ->. by eexists _, _, _, _.
  - destruct (Image.Layers img); [|by apply elem_of_nil in H].
    apply elem_of_flat_map in H as (l & _ & H). unfold layerBlob in H.
    repeat case_match; try by apply elem_of_nil in H.
    apply list_elem_of_singleton in H as ->. by eexists _, _, _, _.
  - repeat case_match; try by apply elem_of_nil in H.
    apply list_elem_of_singleton in H as ->. by eexists _, _, _, _.
  - repeat case_match; try by apply elem_of_nil in H.
    apply list_elem_of_fmap in H as (x & -> & _). by eexists _, _, _, _.
Qed.

Lemma indexManifestBlobs_form idx also kv :
  kv ∈ indexManifestBlobs idx also ->
  exists name h rc ct, kv = (objectKey name, blobObject h rc ct).
Proof.
  unfold indexManifestBlobs.
  repeat case_match; try by intros ?%elem_of_nil.
  intros [->|(x & -> & _)%list_elem_of_fmap]%elem_of_cons;
    by eexists _, _, _, _.
Qed.

(** C9, as amended.  An index of image A (one layer) and image B (two
    layers), served with the alias "latest" into an empty bucket with no
    failure: the store accepted exactly nine writes, three blobs of A, four
    of B, the index manifest under its digest and the same object under
    "latest".  When the nine keys are pairwise distinct the bucket holds
    exactly these nine objects, and BlobExists finds each of them (given a
    digest NewHash accepts and a size that fits int64). *)
Theorem serveIndex_scenario
    (cfg : config) (s : Storage) (method : string) (idx : ImageIndex.t)
    (mA mB : Descriptor.t) (imgA imgB : Image.t) (la lb1 lb2 : Layer.t)
    (sc : schedule) (w' : world) :
  ImageIndex.IndexManifest idx = Ok [mA; mB] ->
  ImageIndex.Image idx (Descriptor.Digest mA) = Ok imgA ->
  ImageIndex.Image idx (Descriptor.Digest mB) = Ok imgB ->
  Image.Layers imgA = Ok [la] ->
  Image.Layers imgB = Ok [lb1; lb2] ->
  exec sc (ServeIndex cfg s method idx ["latest"]) (mkWorld ∅ [])
  = (Return None, w') ->
  let blobs := imageBlobs imgA [] ++ imageBlobs imgB [] ++
               indexManifestBlobs idx ["latest"] in
  length (imageBlobs imgA []) = 3%nat /\
  length (imageBlobs imgB []) = 4%nat /\
  (exists d b mt,
     ImageIndex.Digest idx = Ok d /\ ImageIndex.RawManifest idx = Ok b /\
     indexManifestBlobs idx ["latest"]
     = [(objectKey (Hash.String d), blobObject d (NopCloser b) mt);
        (objectKey "latest", blobObject d (NopCloser b) mt)]) /\
  (forall kv, kv ∈ blobs ->
     exists name h rc ct, kv = (objectKey name, blobObject h rc ct)) /\
  ok_puts (added (mkWorld ∅ []) w') ≡ₚ blobs /\
  (NoDup blobs.*1 ->
     store w' = list_to_map blobs /\
     base.size (store w') = 9%nat /\
     forall name h rc ct,
       (objectKey name, blobObject h rc ct) ∈ blobs ->
       valid_digest h ->
       Z.of_nat (length (rc_data rc)) < 2 ^ 63 ->
       BlobExists cfg s (GetObjectDetailedMeta (store w')) name
       = Returns (Descriptor.mk h ct (Z.of_nat (length (rc_data rc))))).
Proof.
  intros Him HA HB HlA HlB (evs & HS & -> & Hst)%exec_None blobs.
  destruct (ServeIndex_clean cfg s method idx ["latest"]
              (Steps_None_not_doomed _ _ HS)) as (Hbk & Hres & Hmust).
  pose proof (Steps_must_puts _ _ HS) as Hperm. rewrite Hmust in Hperm.
  destruct Hres as (ms & Hms & Hall). rewrite Him in Hms.
  injection Hms as <-.
  apply Forall_cons in Hall as [(imgA' & HA' & HrA & HmA) Hall].
  apply Forall_cons in Hall as [(imgB' & HB' & HrB & HmB) _].
  rewrite HA in HA'. rewrite HB in HB'.
  injection HA' as <-. injection HB' as <-.
  assert (Hblobs : indexImageBlobs idx ++ indexManifestBlobs idx ["latest"]
                   = blobs).
  { unfold blobs, indexImageBlobs. rewrite Him. simpl.
    by rewrite HA, HB, app_nil_r, <- app_assoc. }
  rewrite Hblobs in Hperm.
  pose proof (imageBlobs_length imgA [] _ HrA HmA HlA) as HlenA.
  pose proof (imageBlobs_length imgB [] _ HrB HmB HlB) as HlenB.
  assert (Hidx : exists d b mt,
             ImageIndex.Digest idx = Ok d /\ ImageIndex.RawManifest idx = Ok b /\
             indexManifestBlobs idx ["latest"]
             = [(objectKey (Hash.String d), blobObject d (NopCloser b) mt);
                (objectKey "latest", blobObject d (NopCloser b) mt)]).
  { assert (Hd : doomed (WriteIndexManifest cfg s idx ["latest"]) = false).
    { pose proof (Steps_None_not_doomed _ _ HS) as Hd.
      rewrite ServeIndex_phases, !doomed_andThen in Hd.
      by apply orb_false_iff in Hd as [_ [? _]%orb_false_iff]. }
    unfold WriteIndexManifest, indexManifestBlobs in *.
    destruct (ImageIndex.RawManifest idx) as [b|]; [|done].
    destruct (ImageIndex.MediaType idx) as [mt|]; [|done].
    destruct (ImageIndex.Digest idx) as [d|]; [|done].
    by exists d, b, mt. }
  split; [done|]. split; [done|]. split; [done|]. split.
  { intros kv. unfold blobs. rewrite !elem_of_app.
    intros [?|[?|?]];
      eauto using imageBlobs_form, indexManifestBlobs_form. }
  split; [done|]. intros Hnd.
  assert (Hw : store w' = list_to_map blobs).
  { rewrite Hst. simpl.
    rewrite (write_all_coherent_perm _ blobs); [|apply coherent_NoDup|done].
    - rewrite write_all_NoDup by done. apply (right_id_L ∅ (∪)).
    - by rewrite Hperm. }
  split; [done|]. split.
  - rewrite Hw, map_size_list_to_map by done.
    unfold blobs. rewrite !length_app, HlenA, HlenB.
    destruct Hidx as (d & b & mt & _ & _ & ->). done.
  - intros name h rc ct Hin Hh Hlen.
    apply BlobExists_stored; try done.
    rewrite Hw. by apply elem_of_list_to_map_1.
Qed.

(** * Further properties of the package *)

(** ** NewStorage and the package configuration *)

Definition defaultEndpoint : string := "oss-cn-beijing.aliyuncs.com".
Definition defaultBucket : string := "nydus-demo".

Lemma NewStorage_config oss_New cfg :
  (NewStorage oss_New cfg).1
  = mkConfig (if String.eqb (bucket cfg) "" then defaultBucket else bucket cfg)
             (if String.eqb (endpoint cfg) "" then defaultEndpoint
              else endpoint cfg)
             (accessID cfg) (accessKey cfg).
Proof.
  unfold NewStorage. destruct cfg as [b e i k]. simpl.
  destruct (String.eqb e ""); simpl; destruct (String.eqb b ""); simpl;
    by destruct (oss_New _ _ _).
Qed.

Lemma NewStorage_result oss_New cfg :
  (NewStorage oss_New cfg).2
  = match oss_New ("https://" +:+ endpoint (NewStorage oss_New cfg).1)
            (accessID cfg) (accessKey cfg) with
    | Ok c => Ok (mkStorage c)
    | Err e => Err ("NewClient: " +:+ e)
    end.
Proof.
  rewrite NewStorage_config. unfold NewStorage.
  destruct cfg as [b e i k]. simpl.
  destruct (String.eqb e ""); simpl; destruct (String.eqb b ""); simpl;
    by destruct (oss_New _ _ _).
Qed.

(** X1.  NewStorage replaces an unset endpoint and an unset bucket by the
    defaults and keeps the ones that are set, whether or not the client
    can be created.  So after a call neither is empty, the credentials are
    untouched, and a second call changes nothing.  The client is created
    for https://<endpoint after defaulting>, and a failure of the SDK
    constructor is reported with the prefix "NewClient: ". *)
Theorem NewStorage_defaults
    (oss_New : string -> string -> string -> result Client) (cfg : config) :
  let cfg' := (NewStorage oss_New cfg).1 in
  bucket cfg' <> "" /\ endpoint cfg' <> "" /\
  (bucket cfg <> "" -> bucket cfg' = bucket cfg) /\
  (endpoint cfg <> "" -> endpoint cfg' = endpoint cfg) /\
  (bucket cfg = "" -> bucket cfg' = "nydus-demo") /\
  (endpoint cfg = "" -> endpoint cfg' = "oss-cn-beijing.aliyuncs.com") /\
  accessID cfg' = accessID cfg /\ accessKey cfg' = accessKey cfg /\
  (NewStorage oss_New cfg').1 = cfg' /\
  (NewStorage oss_New cfg).2
  = match oss_New ("https://" +:+ endpoint cfg') (accessID cfg) (accessKey cfg)
    with
    | Ok c => Ok (mkStorage c)
    | Err e => Err ("NewClient: " +:+ e)
    end.
Proof.
  intros cfg'. subst cfg'.
  split; [|split; [|split; [|split; [|split; [|split; [|split;
    [|split; [|split]]]]]]]]; try apply NewStorage_result;
    rewrite !NewStorage_config; simpl.
  - by destruct (String.eqb_spec (bucket cfg) "").
  - by destruct (String.eqb_spec (endpoint cfg) "").
  - by destruct (String.eqb_spec (bucket cfg) "").
  - by destruct (String.eqb_spec (endpoint cfg) "").
  - by destruct (String.eqb_spec (bucket cfg) "").
  - by destruct (String.eqb_spec (endpoint cfg) "").
  - done.
  - done.
  - f_equal.
    + destruct (String.eqb (bucket cfg) "") eqn:Hb; [done|by rewrite Hb].
    + destruct (String.eqb (endpoint cfg) "") eqn:He; [done|by rewrite He].
Qed.

(** X2.  The redirect target of Blob depends on whether NewStorage has run:
    for a given name, the target computed from the configuration NewStorage
    leaves equals the target computed from the configuration it found
    exactly when both the bucket and the endpoint were already set.  With
    either unset, Blob called before NewStorage redirects to a different
    (host-less or bucket-less) URL than after it. *)
Theorem Blob_location_after_NewStorage
    (oss_New : string -> string -> string -> result Client) (cfg : config)
    (name : string) :
  resolveLocation (NewStorage oss_New cfg).1 name = resolveLocation cfg name
  <-> bucket cfg <> "" /\ endpoint cfg <> "".
Proof.
  rewrite NewStorage_config. unfold resolveLocation. simpl.
  destruct (String.eqb_spec (bucket cfg) "") as [Hb|Hb].
  { split; [|by intros [? _]]. rewrite Hb. intros H.
    apply append_inj_l in H. discriminate H. }
  destruct (String.eqb_spec (endpoint cfg) "") as [He|He].
  { split; [|by intros [_ ?]]. rewrite He. intros H.
    do 3 apply append_inj_l in H. discriminate H. }
  done.
Qed.

(** ** Single writes *)

Lemma exec_writeBlob cfg s name h rc ct sc w :
  exec sc (writeBlob cfg s name h rc ct) w
  = match client_Bucket (client s) (bucket cfg) with
    | Some e => (Return (Some e), w)
    | None =>
        match answer (sc O) with
        | Some e =>
            (Return (Some e),
             emit (EvPut (objectKey name) (blobObject h rc ct) (Some e)) w)
        | None =>
            (Return (option_map (fun e => "rc.Close: " +:+ e) (rc_close rc)),
             put (objectKey name) (blobObject h rc ct) w)
        end
    end.
Proof.
  unfold writeBlob, exec. destruct (client_Bucket _ _); [done|]. simpl.
  by destruct (answer (sc O)).
Qed.


(** X4.  writeBlob has three ways to fail, with three different effects:
    if the client refuses the bucket nothing is sent; if the store refuses
    the upload its error is returned and the bucket is unchanged; if the
    upload succeeds but closing the reader fails, the error
    "rc.Close: ..." is returned although the blob is by then stored under
    blobs/<name> with its content type and digest metadata. *)
Theorem writeBlob_failure_modes
    (cfg : config) (s : Storage) (name : string) (h : Hash.t)
    (rc : ReadCloser) (contentType : string) (sc : schedule) (w : world) :
  let '(p', w') := exec sc (writeBlob cfg s name h rc contentType) w in
  match client_Bucket (client s) (bucket cfg), answer (sc O), rc_close rc with
  | Some e, _, _ => p' = Return (Some e) /\ w' = w
  | None, Some e, _ => p' = Return (Some e) /\ store w' = store w
  | None, None, close =>
      p' = Return (option_map (fun e => "rc.Close: " +:+ e) close) /\
      store w' !! ("blobs/" +:+ name)
      = Some (mkObject (rc_data rc)
                [("Content-Type", contentType);
                 ("X-Oss-Meta-Content-Type", contentType);
                 ("X-Oss-Meta-Docker-Content-Digest", Hash.String h)]) /\
      (forall key, key <> "blobs/" +:+ name ->
         store w' !! key = store w !! key)
  end.
Proof.
  rewrite exec_writeBlob. destruct (client_Bucket _ _); [done|].
  destruct (answer (sc O)); [done|]. simpl.
  split; [done|]. split; [apply lookup_insert_eq|].
  intros key Hkey. by apply lookup_insert_ne.
Qed.

(** X5.  What writeBlob stores, BlobExists reads back: once the upload of a
    blob has been accepted (even if closing the reader then fails),
    BlobExists for the same name returns the digest, the media type and the
    byte length the blob was written with.  The digest must be one NewHash
    accepts and the length must fit an int64. *)
Theorem writeBlob_then_BlobExists
    (cfg : config) (s : Storage) (name : string) (h : Hash.t)
    (rc : ReadCloser) (contentType : string) (sc : schedule) (w : world) :
  client_Bucket (client s) (bucket cfg) = None ->
  answer (sc O) = None ->
  valid_digest h ->
  Z.of_nat (length (rc_data rc)) < 2 ^ 63 ->
  BlobExists cfg s
    (GetObjectDetailedMeta
       (store (exec sc (writeBlob cfg s name h rc contentType) w).2)) name
  = Returns (Descriptor.mk h contentType (Z.of_nat (length (rc_data rc)))).
Proof.
  intros Hb Ha Hh Hlen. rewrite exec_writeBlob, Hb, Ha. simpl.
  apply BlobExists_stored; try done. apply lookup_insert_eq.
Qed.

(** A sample blob written into the empty bucket and looked up again. *)
Lemma writeBlob_then_BlobExists_witness :
  BlobExists Sample.cfg Sample.st
    (GetObjectDetailedMeta
       (store (exec Sample.calm
                 (writeBlob Sample.cfg Sample.st "latest"
                    (Sample.toy_hash (Sample.blob "manifestA"))
                    (mkRC (Sample.blob "manifestA") (Some "broken pipe"))
                    "application/json") Sample.empty).2)) "latest"
  = Returns (Descriptor.mk (Sample.toy_hash (Sample.blob "manifestA"))
               "application/json" 9).
Proof.
  apply (writeBlob_then_BlobExists Sample.cfg Sample.st "latest"
           (Sample.toy_hash (Sample.blob "manifestA"))
           (mkRC (Sample.blob "manifestA") (Some "broken pipe"))
           "application/json" Sample.calm Sample.empty);
    [reflexivity|reflexivity|by vm_compute|by vm_compute].
Defined.

(** ** WriteImage under different schedules *)

(** X6.  The bucket a successful WriteImage leaves does not depend on how
    the layer and alias goroutines were interleaved: if layers with the
    same digest are the same object, any two runs that return nil from the
    same bucket end in the same bucket, namely the one obtained by writing
    config, layers, manifest and aliases one after the other. *)
Theorem WriteImage_schedule_independent
    (cfg : config) (s : Storage) (img : Image.t) (also : list string)
    (sc1 sc2 : schedule) (w w1 w2 : world) :
  coherent (layerBlobs img) ->
  exec sc1 (WriteImage cfg s img also) w = (Return None, w1) ->
  exec sc2 (WriteImage cfg s img also) w = (Return None, w2) ->
  store w1 = store w2 /\
  store w1 = write_all (imageBlobs img also) (store w).
Proof.
  intros Hcoh (evs1 & HS1 & _ & Hst1)%exec_None
    (evs2 & HS2 & _ & Hst2)%exec_None.
  rewrite Hst1, Hst2.
  by rewrite !(WriteImage_store cfg s img also).
Qed.

(** The sample image written under two different schedules. *)
Lemma WriteImage_schedule_independent_witness :
  store (exec Sample.calm
           (WriteImage Sample.cfg Sample.st Sample.imgA ["latest"])
           Sample.empty).2
  = store (exec (fun n => mkChoice [S n] None)
             (WriteImage Sample.cfg Sample.st Sample.imgA ["latest"])
             Sample.empty).2.
Proof.
  destruct (exec Sample.calm _ _) as [p1 w1] eqn:H1.
  destruct (exec (fun n => mkChoice [S n] None) _ _) as [p2 w2] eqn:H2.
  assert (p1 = Return None) as ->.
  { vm_compute in H1. by injection H1 as <- _. }
  assert (p2 = Return None) as ->.
  { vm_compute in H2. by injection H2 as <- _. }
  simpl.
  apply (WriteImage_schedule_independent Sample.cfg Sample.st Sample.imgA
           ["latest"] Sample.calm (fun n => mkChoice [S n] None)
           Sample.empty w1 w2); [|done|done].
  apply coherent_NoDup. vm_compute. repeat constructor; set_solver.
Defined.

(** X7.  WriteImage writes the config blob before anything else: a run
    that sent anything to the store sent the config first, and if that
    write was refused it is the only one and its error is returned; a run
    that sent nothing returned an error. *)
Theorem WriteImage_config_first
    (cfg : config) (s : Storage) (img : Image.t) (also : list string)
    (sc : schedule) (w : world) :
  let '(p', w') := exec sc (WriteImage cfg s img also) w in
  (added w w' = [] /\ exists e, p' = Return (Some e)) \/
  (exists key o out rest,
     added w w' = EvPut key o out :: rest /\
     configBlob img = [(key, o)] /\
     (forall e, out = Some e -> rest = [] /\ p' = Return (Some e))).
Proof.
  destruct (exec_spec sc (WriteImage cfg s img also) w)
    as (r & evs & Hex & HS & _).
  rewrite Hex, added_apply_events. clear Hex.
  unfold WriteImage, configBlob in *.
  destruct (Image.ConfigName img) as [ch|e];
    [|apply Steps_Return_inv in HS as [-> [= ->]]; left; eauto].
  destruct (Image.RawConfigFile img) as [cb|e];
    [|apply Steps_Return_inv in HS as [-> [= ->]]; left; eauto].
  unfold writeBlob at 1 in HS.
  destruct (client_Bucket _ _) as [e|];
    [apply Steps_Return_inv in HS as [-> [= ->]]; left; eauto|].
  simpl in HS. right.
  inversion HS as [|? ev p1 rest ? Hstep Hrest]; subst.
  inversion Hstep; subst.
  - eexists _, _, None, rest. split; [done|]. split; [done|]. by intros e.
  - apply Steps_Return_inv in Hrest as [-> [= ->]].
    eexists _, _, (Some e), []. split; [done|]. split; [done|].
    by intros ? [= <-].
Qed.

(** ** What the names resolve to after a publish *)

(** A key whose last write in [l], if any, carries [o], over a bucket that
    holds [o] under it unless [l] writes it. *)
Lemma write_all_same l (st : gmap string object) k o :
  (forall kv, kv ∈ l -> kv.1 = k -> kv.2 = o) ->
  st !! k = Some o \/ k ∈ l.*1 ->
  write_all l st !! k = Some o.
Proof.
  revert st. induction l as [|[k' o'] l IH]; intros st Hall Hk.
  { destruct Hk as [?|Hk]; [done|]. by apply elem_of_nil in Hk. }
  change (write_all ((k', o') :: l) st) with (write_all l (<[k':=o']> st)).
  apply IH.
  - intros kv Hin. apply Hall. by right.
  - destruct (decide (k' = k)) as [->|Hne].
    + left. rewrite lookup_insert_eq. f_equal.
      apply (Hall (k, o')); [by left|done].
    + destruct Hk as [?|Hk]; [left; by rewrite lookup_insert_ne|].
      right. simpl in Hk. apply elem_of_cons in Hk as [?|?]; [by subst|done].
Qed.

(** The accepted writes of a successful WriteImage, in the order in which
    the program makes them: config, layers in some order, manifest, aliases
    in some order. *)
Lemma WriteImage_ok_puts cfg s img also evs :
  Steps (WriteImage cfg s img also) evs (Return None) ->
  exists c m P1 PA,
    configBlob img = [c] /\ manifestBlob img = [m] /\
    ok_puts evs = [c] ++ P1 ++ [m] ++ PA /\
    P1 ≡ₚ layerBlobs img /\ PA ≡ₚ aliasBlobs img also.
Proof.
  intros HS. rewrite WriteImage_phases in HS.
  apply Steps_andThen in HS as (evs1 & [e|] & H1 & H2); [by destruct H2|].
  destruct H2 as (evs2 & -> & H2).
  pose proof (Steps_None_not_doomed _ _ H1) as Hd1.
  pose proof (Steps_None_not_doomed _ _ H2) as Hd2.
  destruct (WriteReferents_shape cfg s _ Hd1)
    as ([ck co] & ls & Hc & Hls & Hshape1).
  destruct (WriteManifest_shape cfg s _ _ Hd2)
    as ([mk mo] & ts & Hm & Hts & Hshape2).
  destruct (WriteReferents_clean _ _ _ Hd1) as (_ & _ & Hmust1).
  rewrite Hshape1 in H1, Hmust1. rewrite Hshape2 in H2. simpl in *.
  apply Steps_PutObject_None in H1 as (evs1' & -> & H1).
  apply Steps_PutObject_None in H2 as (evs2' & -> & H2).
  apply Steps_must_puts in H1, H2. simpl in H1, H2.
  rewrite app_nil_r in H1, H2, Hmust1. rewrite Hts in H2.
  unfold referentBlobs in Hmust1. rewrite Hc in Hmust1.
  injection Hmust1 as Hmust1. rewrite Hmust1 in H1.
  exists (ck, co), (mk, mo), (ok_puts evs1'), (ok_puts evs2').
  split; [done|]. split; [done|]. split; [|done].
  rewrite ok_puts_app.
  change (ok_puts (EvPut ck co None :: evs1'))
    with ([(ck, co)] ++ ok_puts evs1').
  change (ok_puts (EvPut mk mo None :: evs2'))
    with ([(mk, mo)] ++ ok_puts evs2').
  by rewrite <- !app_assoc.
Qed.

(** X8.  After a WriteImage that returned nil, the bucket holds the
    manifest under blobs/<digest> and, for every alias, the very same
    object under blobs/<alias>: every alias resolves to the manifest, and
    this needs no assumption on the digests or the alias names (a layer or
    config stored under a colliding key has been overwritten by then). *)
Theorem WriteImage_names_resolve_to_manifest
    (cfg : config) (s : Storage) (img : Image.t) (also : list string)
    (sc : schedule) (w w' : world)
    (d : Hash.t) (b : bytes) (mt : string) :
  Image.Digest img = Ok d ->
  Image.RawManifest img = Ok b ->
  Image.MediaType img = Ok mt ->
  exec sc (WriteImage cfg s img also) w = (Return None, w') ->
  store w' !! ("blobs/" +:+ Hash.String d)
  = Some (blobObject d (NopCloser b) mt) /\
  (forall a, a ∈ also ->
     store w' !! ("blobs/" +:+ a) = Some (blobObject d (NopCloser b) mt)).
Proof.
  intros Hd Hb Hmt (evs & HS & _ & Hst)%exec_None.
  destruct (WriteImage_ok_puts _ _ _ _ _ HS)
    as (c & m & P1 & PA & _ & Hm & Hputs & _ & HPA).
  unfold manifestBlob in Hm. rewrite Hb, Hmt, Hd in Hm.
  injection Hm as <-.
  assert (HPA' : forall kv, kv ∈ PA -> kv.2 = blobObject d (NopCloser b) mt).
  { intros kv. rewrite HPA. unfold aliasBlobs. rewrite Hb, Hmt, Hd.
    by intros (a & -> & _)%list_elem_of_fmap. }
  rewrite Hst, Hputs, !write_all_app.
  set (st1 := write_all P1 (write_all [c] (store w))).
  change (write_all [(objectKey (Hash.String d),
                      blobObject d (NopCloser b) mt)] st1)
    with (<[objectKey (Hash.String d) := blobObject d (NopCloser b) mt]> st1).
  split.
  - apply write_all_same; [by intros kv ? _; apply HPA'|].
    left. apply lookup_insert_eq.
  - intros a Ha. apply write_all_same; [by intros kv ? _; apply HPA'|].
    right. rewrite HPA. unfold aliasBlobs. rewrite Hb, Hmt, Hd.
    rewrite <- list_fmap_compose. apply list_elem_of_fmap. by exists a.
Qed.

(** The sample image and its alias "latest". *)
Lemma WriteImage_names_resolve_to_manifest_witness :
  store (exec Sample.calm
           (WriteImage Sample.cfg Sample.st Sample.imgA ["latest"])
           Sample.empty).2 !! "blobs/latest"
  = Some (blobObject (Sample.toy_hash (Sample.blob "manifestA"))
            (NopCloser (Sample.blob "manifestA"))
            "application/vnd.docker.distribution.manifest.v2+json").
Proof.
  destruct (exec Sample.calm _ _) as [p1 w1] eqn:H1.
  assert (p1 = Return None) as ->.
  { vm_compute in H1. by injection H1 as <- _. }
  simpl.
  destruct (WriteImage_names_resolve_to_manifest Sample.cfg Sample.st
              Sample.imgA ["latest"] Sample.calm Sample.empty w1
              _ _ _ eq_refl eq_refl eq_refl H1) as [_ H].
  apply H. by left.
Defined.

(** ** What a served response points at *)

(** A manifest written and then copied under aliases by a group: whatever
    the order of the copies, the manifest key and every alias key end up
    holding the manifest. *)
Lemma manifest_phase_lookup mk mo ts evs (st : gmap string object) :
  Steps (PutObject mk mo (Group ts None (Return None))) evs (Return None) ->
  (forall kv, kv ∈ flat_map must_puts ts -> kv.2 = mo) ->
  write_all (ok_puts evs) st !! mk = Some mo /\
  (forall k, k ∈ (flat_map must_puts ts).*1 ->
     write_all (ok_puts evs) st !! k = Some mo).
Proof.
  intros (evs' & -> & HS)%Steps_PutObject_None Hall.
  apply Steps_must_puts in HS. simpl in HS. rewrite app_nil_r in HS.
  change (ok_puts (EvPut mk mo None :: evs')) with ([(mk, mo)] ++ ok_puts evs').
  rewrite write_all_app.
  change (write_all [(mk, mo)] st) with (<[mk := mo]> st).
  assert (Hall' : forall kv, kv ∈ ok_puts evs' -> kv.2 = mo).
  { intros kv. rewrite HS. apply Hall. }
  split.
  - apply write_all_same; [by intros kv ? _; apply Hall'|].
    left. apply lookup_insert_eq.
  - intros k Hk. apply write_all_same; [by intros kv ? _; apply Hall'|].
    right. by rewrite HS.
Qed.

Lemma WriteIndexManifest_shape cfg s idx also :
  doomed (WriteIndexManifest cfg s idx also) = false ->
  exists d b mt ts,
    ImageIndex.Digest idx = Ok d /\ ImageIndex.RawManifest idx = Ok b /\
    ImageIndex.MediaType idx = Ok mt /\
    client_Bucket (client s) (bucket cfg) = None /\
    flat_map must_puts ts
    = map (fun a => (objectKey a, blobObject d (NopCloser b) mt)) also /\
    WriteIndexManifest cfg s idx also
    = PutObject (objectKey (Hash.String d)) (blobObject d (NopCloser b) mt)
        (Group ts None (Return None)).
Proof.
  unfold WriteIndexManifest.
  destruct (ImageIndex.RawManifest idx) as [b|]; [|done].
  destruct (ImageIndex.MediaType idx) as [mt|]; [|done].
  destruct (ImageIndex.Digest idx) as [d|]; [|done].
  unfold writeBlob. destruct (client_Bucket _ _) eqn:Hb; [done|]. simpl.
  intros _. exists d, b, mt. eexists. split; [done|]. split; [done|].
  split; [done|]. split; [done|]. split; [|done].
  by destruct (aliasTasks_clean cfg s d b mt also Hb) as [_ ->].
Qed.

Lemma WriteManifest_shape' cfg s img also :
  doomed (WriteManifest cfg s img also) = false ->
  exists d b mt ts,
    Image.Digest img = Ok d /\ Image.RawManifest img = Ok b /\
    Image.MediaType img = Ok mt /\
    client_Bucket (client s) (bucket cfg) = None /\
    flat_map must_puts ts
    = map (fun a => (objectKey a, blobObject d (NopCloser b) mt)) also /\
    WriteManifest cfg s img also
    = PutObject (objectKey (Hash.String d)) (blobObject d (NopCloser b) mt)
        (Group ts None (Return None)).
Proof.
  unfold WriteManifest.
  destruct (Image.RawManifest img) as [b|]; [|done].
  destruct (Image.MediaType img) as [mt|]; [|done].
  destruct (Image.Digest img) as [d|]; [|done].
  unfold writeBlob. destruct (client_Bucket _ _) eqn:Hb; [done|]. simpl.
  intros _. exists d, b, mt. eexists. split; [done|]. split; [done|].
  split; [done|]. split; [done|]. split; [|done].
  by destruct (aliasTasks_clean cfg s d b mt also Hb) as [_ ->].
Qed.

Lemma alias_objects_same (d : Hash.t) (b : bytes) (mt : string) also kv :
  kv ∈ map (fun a => (objectKey a, blobObject d (NopCloser b) mt)) also ->
  kv.2 = blobObject d (NopCloser b) mt.
Proof. by intros (a & -> & _)%list_elem_of_fmap. Qed.

Lemma alias_keys (d : Hash.t) (b : bytes) (mt : string) also a :
  a ∈ also ->
  objectKey a
  ∈ (map (fun a => (objectKey a, blobObject d (NopCloser b) mt)) also).*1.
Proof.
  intros Ha. rewrite <- list_fmap_compose. apply list_elem_of_fmap.
  by exists a.
Qed.

(** X9.  A ServeManifest call that returned nil never answers with a
    dangling pointer: the redirect target is
    https://<bucket>.<endpoint>/ followed by the object key
    blobs/<digest>, the bucket holds the manifest under that key and under
    every alias, and BlobExists for the digest (or an alias) returns the
    digest and media type that a HEAD request announces, with the byte
    length of the manifest. *)
Theorem ServeManifest_target_exists
    (cfg : config) (s : Storage) (method : string) (img : Image.t)
    (also : list string) (sc : schedule) (w w' : world)
    (d : Hash.t) (b : bytes) (mt : string) :
  Image.Digest img = Ok d ->
  Image.RawManifest img = Ok b ->
  Image.MediaType img = Ok mt ->
  valid_digest d ->
  Z.of_nat (length b) < 2 ^ 63 ->
  exec sc (ServeManifest cfg s method img also) w = (Return None, w') ->
  resolveLocation cfg (Hash.String d)
  = ("https://" +:+ bucket cfg +:+ "." +:+ endpoint cfg +:+ "/") +:+
    objectKey (Hash.String d) /\
  store w' !! objectKey (Hash.String d)
  = Some (blobObject d (NopCloser b) mt) /\
  (forall name, name = Hash.String d \/ name ∈ also ->
     BlobExists cfg s (GetObjectDetailedMeta (store w')) name
     = Returns (Descriptor.mk d mt (Z.of_nat (length b)))).
Proof.
  intros Hd Hb Hmt Hvalid Hlen (evs & HS & _ & Hst)%exec_None.
  rewrite ServeManifest_phases, WriteImage_phases in HS.
  apply Steps_andThen in HS as (evs12 & [e|] & H12 & H3); [by destruct H3|].
  destruct H3 as (evs3 & -> & H3).
  apply Steps_andThen in H12 as (evs1 & [e|] & H1 & H2); [by destruct H2|].
  destruct H2 as (evs2 & -> & H2).
  assert (Hresp : ok_puts evs3 = []).
  { apply respondManifest_Steps in H3 as [(e & [=] & _)|(D0 & _ & _ & H3)].
    destruct (String.eqb method MethodHead).
    - by destruct H3 as (? & ? & _ & _ & ->).
    - by subst. }
  destruct (WriteManifest_shape' cfg s img also
              (Steps_None_not_doomed _ _ H2))
    as (d' & b' & mt' & ts & Hd' & Hb' & Hmt' & Hbk & Hts & Hshape).
  rewrite Hd in Hd'. rewrite Hb in Hb'. rewrite Hmt in Hmt'.
  injection Hd' as <-. injection Hb' as <-. injection Hmt' as <-.
  rewrite Hshape in H2.
  destruct (manifest_phase_lookup _ _ _ _
              (write_all (ok_puts evs1) (store w)) H2) as [Hm Ha].
  { intros kv. rewrite Hts. apply alias_objects_same. }
  assert (Hw : store w'
               = write_all (ok_puts evs2) (write_all (ok_puts evs1) (store w))).
  { by rewrite Hst, !ok_puts_app, Hresp, app_nil_r, write_all_app. }
  split.
  { unfold resolveLocation, objectKey. by rewrite <- !append_assoc. }
  split; [by rewrite Hw|].
  intros name Hname.
  change (Z.of_nat (length b))
    with (Z.of_nat (length (rc_data (NopCloser b)))).
  apply BlobExists_stored; try done. rewrite Hw.
  destruct Hname as [->|Hin]; [done|].
  apply Ha. rewrite Hts. by apply alias_keys.
Qed.

(** The sample image served with the alias "latest": BlobExists finds the
    manifest under the alias. *)
Lemma ServeManifest_target_exists_witness :
  BlobExists Sample.cfg Sample.st
    (GetObjectDetailedMeta
       (store (exec Sample.calm
                 (ServeManifest Sample.cfg Sample.st "GET" Sample.imgA
                    ["latest"]) Sample.empty).2)) "latest"
  = Returns (Descriptor.mk (Sample.toy_hash (Sample.blob "manifestA"))
               "application/vnd.docker.distribution.manifest.v2+json" 9).
Proof.
  destruct (exec Sample.calm _ _) as [p1 w1] eqn:H1.
  assert (p1 = Return None) as ->.
  { vm_compute in H1. by injection H1 as <- _. }
  simpl.
  destruct (ServeManifest_target_exists Sample.cfg Sample.st "GET"
              Sample.imgA ["latest"] Sample.calm Sample.empty w1 _ _ _
              eq_refl eq_refl eq_refl) as (_ & _ & H);
    [by vm_compute|by vm_compute|exact H1|].
  apply H. right. by left.
Defined.

(** X10.  The same for ServeIndex: after a call that returned nil the
    bucket holds the index manifest under blobs/<digest> and under every
    alias, whatever the images of the index wrote before, and BlobExists
    for the digest or an alias returns the digest and media type of the
    index with the byte length of its manifest. *)
Theorem ServeIndex_target_exists
    (cfg : config) (s : Storage) (method : string) (idx : ImageIndex.t)
    (also : list string) (sc : schedule) (w w' : world)
    (d : Hash.t) (b : bytes) (mt : string) :
  ImageIndex.Digest idx = Ok d ->
  ImageIndex.RawManifest idx = Ok b ->
  ImageIndex.MediaType idx = Ok mt ->
  valid_digest d ->
  Z.of_nat (length b) < 2 ^ 63 ->
  exec sc (ServeIndex cfg s method idx also) w = (Return None, w') ->
  store w' !! objectKey (Hash.String d)
  = Some (blobObject d (NopCloser b) mt) /\
  (forall name, name = Hash.String d \/ name ∈ also ->
     BlobExists cfg s (GetObjectDetailedMeta (store w')) name
     = Returns (Descriptor.mk d mt (Z.of_nat (length b)))).
Proof.
  intros Hd Hb Hmt Hvalid Hlen (evs & HS & _ & Hst)%exec_None.
  rewrite ServeIndex_phases in HS.
  apply Steps_andThen in HS as (evs1 & [e|] & H1 & H23); [by destruct H23|].
  destruct H23 as (evs23 & -> & H23).
  apply Steps_andThen in H23 as (evs2 & [e|] & H2 & H3); [by destruct H3|].
  destruct H3 as (evs3 & -> & H3).
  assert (Hresp : ok_puts evs3 = []).
  { apply respondIndex_Steps in H3
      as [(e & [=] & _)|(D0 & T0 & _ & _ & _ & H3)].
    destruct (String.eqb method MethodHead).
    - by destruct H3 as (? & _ & ->).
    - by subst. }
  destruct (WriteIndexManifest_shape cfg s idx also
              (Steps_None_not_doomed _ _ H2))
    as (d' & b' & mt' & ts & Hd' & Hb' & Hmt' & Hbk & Hts & Hshape).
  rewrite Hd in Hd'. rewrite Hb in Hb'. rewrite Hmt in Hmt'.
  injection Hd' as <-. injection Hb' as <-. injection Hmt' as <-.
  rewrite Hshape in H2.
  destruct (manifest_phase_lookup _ _ _ _
              (write_all (ok_puts evs1) (store w)) H2) as [Hm Ha].
  { intros kv. rewrite Hts. apply alias_objects_same. }
  assert (Hw : store w'
               = write_all (ok_puts evs2) (write_all (ok_puts evs1) (store w))).
  { by rewrite Hst, !ok_puts_app, Hresp, app_nil_r, write_all_app. }
  split; [by rewrite Hw|].
  intros name Hname.
  change (Z.of_nat (length b))
    with (Z.of_nat (length (rc_data (NopCloser b)))).
  apply BlobExists_stored; try done. rewrite Hw.
  destruct Hname as [->|Hin]; [done|].
  apply Ha. rewrite Hts. by apply alias_keys.
Qed.

(** The sample index served with the alias "latest". *)
Lemma ServeIndex_target_exists_witness :
  BlobExists Sample.cfg Sample.st
    (GetObjectDetailedMeta
       (store (exec Sample.calm
                 (ServeIndex Sample.cfg Sample.st "HEAD" Sample.index
                    ["latest"]) Sample.empty).2)) "latest"
  = Returns (Descriptor.mk (Sample.toy_hash (Sample.blob "index"))
               "application/vnd.docker.distribution.manifest.list.v2+json" 5).
Proof.
  destruct (exec Sample.calm _ _) as [p1 w1] eqn:H1.
  assert (p1 = Return None) as ->.
  { vm_compute in H1. by injection H1 as <- _. }
  simpl.
  destruct (ServeIndex_target_exists Sample.cfg Sample.st "HEAD"
              Sample.index ["latest"] Sample.calm Sample.empty w1 _ _ _
              eq_refl eq_refl eq_refl) as (_ & H);
    [by vm_compute|by vm_compute|exact H1|].
  apply H. right. by left.
Defined.

(** ** ServeIndex as a whole *)

(** X11.  Fan-out of ServeIndex for any index and alias list: if the call
    returns nil, the index yielded every image it lists, the writes the
    store accepted are exactly the blobs of all these images, the index
    manifest and one copy of it per alias, and no other key has changed.
    When the keys are pairwise distinct the bucket is the old one
    overwritten with these blobs, whatever the schedule, and if none was
    there before it has grown by exactly their number. *)
Theorem ServeIndex_fan_out
    (cfg : config) (s : Storage) (method : string) (idx : ImageIndex.t)
    (also : list string) (sc : schedule) (w w' : world) :
  exec sc (ServeIndex cfg s method idx also) w = (Return None, w') ->
  let blobs := indexImageBlobs idx ++ indexManifestBlobs idx also in
  index_resolved idx /\
  ok_puts (added w w') ≡ₚ blobs /\
  (forall key, key ∉ blobs.*1 -> store w' !! key = store w !! key) /\
  (NoDup blobs.*1 ->
     store w' = list_to_map blobs ∪ store w /\
     ((forall key, key ∈ blobs.*1 -> store w !! key = None) ->
      base.size (store w') = (base.size (store w) + length blobs)%nat)).
Proof.
  intros (evs & HS & -> & Hst)%exec_None blobs.
  destruct (ServeIndex_clean cfg s method idx also
              (Steps_None_not_doomed _ _ HS)) as (_ & Hres & Hmust).
  pose proof (Steps_must_puts _ _ HS) as Hperm. rewrite Hmust in Hperm.
  split; [done|]. split; [done|]. split.
  - intros key Hkey. rewrite Hst. apply write_all_lookup_other.
    by rewrite Hperm.
  - intros Hnd.
    assert (Hw : store w' = write_all blobs (store w)).
    { rewrite Hst. apply write_all_coherent_perm; [|done].
      apply coherent_NoDup. by rewrite Hperm. }
    split.
    + rewrite Hw. by apply write_all_NoDup.
    + intros Hfresh. rewrite Hw. by apply write_all_size.
Qed.

(** The sample index with one alias, served into the empty bucket. *)
Lemma ServeIndex_fan_out_witness :
  base.size (store (exec Sample.calm
                      (ServeIndex Sample.cfg Sample.st "GET" Sample.index
                         ["latest"]) Sample.empty).2) = 9%nat.
Proof.
  destruct (exec Sample.calm _ _) as [p1 w1] eqn:H1.
  assert (p1 = Return None) as ->.
  { vm_compute in H1. by injection H1 as <- _. }
  destruct (ServeIndex_fan_out Sample.cfg Sample.st "GET" Sample.index
              ["latest"] Sample.calm Sample.empty w1 H1)
    as (_ & _ & _ & H).
  destruct H as [_ H]; [by vm_compute; repeat constructor; set_solver|].
  simpl. rewrite H; [done|]. intros key _. apply lookup_empty.
Defined.

(** X12.  ServeManifest and ServeIndex touch the response only after the
    store: the events of a call split into a first part without any header
    or redirect and a second part without any PutObject, and the second
    part is non-empty only if no write, goroutine or g.Wait of the first
    part reported an error. *)
Theorem serve_responds_after_writes
    (cfg : config) (s : Storage) (method : string)
    (img : Image.t) (idx : ImageIndex.t) (also : list string)
    (sc : schedule) (w : world) :
  (let '(p', w') := exec sc (ServeManifest cfg s method img also) w in
   exists evs1 evs2,
     added w w' = evs1 ++ evs2 /\ response evs1 = [] /\
     (forall key o out, EvPut key o out ∉ evs2) /\
     (evs2 <> [] -> Forall (fun ev => carries_error ev = false) evs1)) /\
  (let '(p', w') := exec sc (ServeIndex cfg s method idx also) w in
   exists evs1 evs2,
     added w w' = evs1 ++ evs2 /\ response evs1 = [] /\
     (forall key o out, EvPut key o out ∉ evs2) /\
     (evs2 <> [] -> Forall (fun ev => carries_error ev = false) evs1)).
Proof.
  split.
  - destruct (exec_spec sc (ServeManifest cfg s method img also) w)
      as (r & evs & Hex & HS & _).
    rewrite Hex, added_apply_events. rewrite ServeManifest_phases in HS.
    apply Steps_andThen in HS as (evs1 & [e|] & H1 & H2).
    + destruct H2 as [-> ->]. exists evs1, []. rewrite app_nil_r.
      split; [done|]. split.
      { apply (Steps_puts_only _ _ _ H1 (WriteImage_puts_only cfg s img also)). }
      split; [by intros ??? ?%elem_of_nil|done].
    + destruct H2 as (evs2 & -> & H2). exists evs1, evs2.
      split; [done|]. split.
      { apply (Steps_puts_only _ _ _ H1 (WriteImage_puts_only cfg s img also)). }
      split; [|intros _; by eapply Steps_None_no_error].
      intros key o out Hin.
      pose proof (Steps_acts _ _ _ H2 _ _ Hin eq_refl) as Ha.
      by apply respondManifest_no_put in Ha.
  - destruct (exec_spec sc (ServeIndex cfg s method idx also) w)
      as (r & evs & Hex & HS & _).
    rewrite Hex, added_apply_events.
    assert (Hassoc :
      ServeIndex cfg s method idx also
      = ((WriteIndexReferents cfg s idx >> WriteIndexManifest cfg s idx also)
         >> respondIndex cfg method idx)).
    { rewrite ServeIndex_phases. unfold WriteIndexReferents.
      by destruct (ImageIndex.IndexManifest idx). }
    rewrite Hassoc in HS.
    apply Steps_andThen in HS as (evs1 & [e|] & H1 & H2).
    + destruct H2 as [-> ->]. exists evs1, []. rewrite app_nil_r.
      split; [done|]. split.
      { apply (Steps_puts_only _ _ _ H1 (WriteIndex_puts_only cfg s idx also)). }
      split; [by intros ??? ?%elem_of_nil|done].
    + destruct H2 as (evs2 & -> & H2). exists evs1, evs2.
      split; [done|]. split.
      { apply (Steps_puts_only _ _ _ H1 (WriteIndex_puts_only cfg s idx also)). }
      split; [|intros _; by eapply Steps_None_no_error].
      intros key o out Hin.
      pose proof (Steps_acts _ _ _ H2 _ _ Hin eq_refl) as Ha.
      by apply respondIndex_no_put in Ha.
Qed.

(** ** No write is made twice *)







Section NoRetry.
Variable cfg : config.
Variable s : Storage.





End NoRetry.



